(** * gcsfuse: the weighted LRU cache (package lrucache), the download
    job (package downloader) and the names of inodes (package inode)

    A shallow embedding of the Go sources and the properties proved about
    them.

    Conventions of the embedding.
    - A Go call either returns, panics or never returns; [result] records
      which.  A method with a pointer receiver is a function from the
      receiver's state to a [result] and the receiver's state when the call
      ends (deferred calls included).
    - [uint64] values are integers in [0, 2^64); [+=] and [-=] wrap.
    - A Go interface value is an [option]: [None] is the nil interface.
      So is a pointer that the code does not check before it reads
      through it: [None] is the nil pointer.
    - [sync.Mutex] and [locker.Locker] are not modelled: every method is
      executed from start to end on its own, which is what the locks
      provide. *)

From stdpp Require Import base option list gmap strings pretty.
From Stdlib Require Import ZArith Lia.

Local Open Scope Z_scope.

(* ================================================================= *)
(** ** Outcome of a Go call *)

Inductive result (A : Type) : Type :=
| Returns (a : A)
| Panics (msg : string)
| Hangs.
Arguments Returns {A} a.
Arguments Panics {A} msg.
Arguments Hangs {A}.

Definition panics {A} (r : result A) : Prop :=
  match r with Panics _ => True | _ => False end.

(** The message of the run-time panic raised by a method call on a nil
    interface or a field access through a nil pointer. *)
Definition nil_dereference : string :=
  "runtime error: invalid memory address or nil pointer dereference".

(* ================================================================= *)
(** ** uint64 arithmetic *)

Definition uint64_modulus : Z := 18446744073709551616.

Definition uint64_max : Z := 18446744073709551615.

Definition is_uint64 (x : Z) : Prop := 0 <= x < uint64_modulus.

Definition add64 (a b : Z) : Z := (a + b) mod uint64_modulus.

Definition sub64 (a b : Z) : Z := (a - b) mod uint64_modulus.

(** A Go [error]: nil or an error with its message. *)
Definition error : Type := option string.

(* ================================================================= *)
(** ** encoding/gob

    The wire format of package gob is outside the repository.  A type
    whose values gob can transmit is a type with an instance of [Gob]:
    [gob_encode] gives the bytes [Encoder.Encode] appends to its buffer or
    the message of its error, [gob_decode] the value [Decoder.Decode]
    reads from the front of its buffer and the bytes left, or the message
    of its error.  [gob_roundtrip] says that what was encoded is decoded
    again, whatever follows it in the buffer. *)

Class Gob (T : Type) : Type := {
  gob_encode : T → string + list Byte.byte;
  gob_decode : list Byte.byte → string + T * list Byte.byte
}.

Definition gob_roundtrip (T : Type) `{Gob T} : Prop :=
  ∀ (x : T) (b rest : list Byte.byte),
    gob_encode x = inr b → gob_decode (b ++ rest) = inr (x, rest).

(* ================================================================= *)
(** ** container/list

    A [list.List] is the sequence of its cells, front first.  A
    [*list.Element] is the identity of a cell; [next] is the identity the
    next allocated cell receives.  The list holds the values of the
    elements that are in it: an element that has been removed has no
    value here, while in Go it keeps its last one.  The cache never reads
    an element that is not in its list (the index only holds elements of
    the list, lemma [wf_index_Value]); where the embedding of the cache
    finds no value for an element it panics. *)

Module GoList.

(** A [*list.Element]. *)
Abbreviation Element := nat (only parsing).

Record List (A : Type) : Type := mkList {
  cells : list (Element * A);
  next : Element
}.
Arguments mkList {A} cells next.
Arguments cells {A} l.
Arguments next {A} l.

Section ops.
Context {A : Type}.

Definition empty : List A := mkList [] O.

Definition Len (l : List A) : nat := length (cells l).

(** [l.Front()] and [l.Back()]: the cell (identity and value), [None] for
    the nil element of an empty list. *)
Definition Front (l : List A) : option (Element * A) := head (cells l).

Definition Back (l : List A) : option (Element * A) := last (cells l).

Fixpoint lookup_cell (e : Element) (cs : list (Element * A)) : option A :=
  match cs with
  | [] => None
  | (e', v) :: cs' => if decide (e' = e) then Some v else lookup_cell e cs'
  end.

(** [e.Value] for an element [e] of [l]. *)
Definition Value (l : List A) (e : Element) : option A :=
  lookup_cell e (cells l).

Definition without (e : Element) (cs : list (Element * A)) : list (Element * A) :=
  filter (λ c, fst c ≠ e) cs.

(** [e.Value = v] *)
Definition SetValue (e : Element) (v : A) (l : List A) : List A :=
  mkList (map (λ c, if decide (fst c = e) then (e, v) else c) (cells l)) (next l).

Definition PushFront (v : A) (l : List A) : Element * List A :=
  (next l, mkList ((next l, v) :: cells l) (S (next l))).

Definition PushBack (v : A) (l : List A) : Element * List A :=
  (next l, mkList (cells l ++ [(next l, v)]) (S (next l))).

(** [l.Remove(e)]: nothing happens when [e] is not an element of [l]. *)
Definition Remove (e : Element) (l : List A) : List A :=
  mkList (without e (cells l)) (next l).

(** [l.MoveToFront(e)]: nothing happens when [e] is not an element of [l]. *)
Definition MoveToFront (e : Element) (l : List A) : List A :=
  match Value l e with
  | Some v => mkList ((e, v) :: without e (cells l)) (next l)
  | None => l
  end.

(** The values of the list, front to back. *)
Definition values (l : List A) : list A := map snd (cells l).

End ops.
Arguments empty {A}.

End GoList.

(* ================================================================= *)
(** ** package lrucache *)

Module lru.

(** [ValueType] is the interface with the single method [Weight() uint64];
    an implementation is a type [V] with an instance of [Weighted]. *)
Class Weighted (V : Type) : Type := {
  Weight : V → Z;
  Weight_uint64 : ∀ v, is_uint64 (Weight v)
}.

Section cache.
Context {V : Type} `{Weighted V}.

(** A value of interface type [ValueType]; [None] is nil. *)
Definition ValueType : Type := option V.

(** [v.Weight()] on an interface value. *)
Definition call_Weight (v : ValueType) : result Z :=
  match v with
  | Some x => Returns (Weight x)
  | None => Panics nil_dereference
  end.

Record entry : Type := mkEntry {
  Key : string;
  Value : ValueType
}.

Record Cache : Type := mkCache {
  maxWeight : Z;
  occupiedWeight : Z;
  entries : GoList.List entry;
  index : gmap string GoList.Element
}.

Definition New (maxWeight : Z) : result Cache :=
  Returns (mkCache maxWeight 0 GoList.empty ∅).

(** [CheckInvariants] only reads the cache.  The type switch on the
    elements of [entries] cannot fail here: the cells are typed. *)
Definition CheckInvariants (c : Cache) : result unit :=
  if negb (0 <? maxWeight c) then
    Panics ("Invalid maxWeight: " +:+ pretty (maxWeight c))
  else if negb (occupiedWeight c <=? maxWeight c) then
    Panics ("Length " +:+ pretty (GoList.Len (entries c)) +:+
            " over maxWeight " +:+ pretty (maxWeight c))
  else if negb (bool_decide (GoList.Len (entries c) = size (index c))) then
    Panics ("Length mismatch: " +:+ pretty (GoList.Len (entries c)) +:+
            " vs. " +:+ pretty (size (index c)))
  else
    match list_find (λ ce : GoList.Element * entry,
                       index c !! Key (snd ce) ≠ Some (fst ce))
                    (GoList.cells (entries c)) with
    | Some (_, ce) => Panics ("Mismatch for key " +:+ Key (snd ce))
    | None => Returns ()
    end.

Definition evictOne (c : Cache) : result ValueType * Cache :=
  match GoList.Back (entries c) with
  | None => (Panics nil_dereference, c)
  | Some (e, en) =>
      let key := Key en in
      let evictedEntry := Value en in
      match call_Weight evictedEntry with
      | Returns w =>
          (Returns evictedEntry,
           mkCache (maxWeight c)
                   (sub64 (occupiedWeight c) w)
                   (GoList.Remove e (entries c))
                   (delete key (index c)))
      | Panics msg => (Panics msg, c)
      | Hangs => (Hangs, c)
      end
  end.

(** The loop [for c.occupiedWeight > c.maxWeight { ... evictOne() }] of
    [Insert], run for at most [fuel] iterations.  [Insert] gives it one
    iteration more than the list has cells; every iteration that does not
    panic removes a cell, so the loop never needs more (lemma
    [evictLoop_fuel]). *)
Fixpoint evictLoop (fuel : nat) (evictedValues : list ValueType) (c : Cache)
  : result (list ValueType) * Cache :=
  if maxWeight c <? occupiedWeight c then
    match fuel with
    | O => (Hangs, c)
    | S fuel' =>
        match evictOne c with
        | (Returns v, c') => evictLoop fuel' (evictedValues ++ [v]) c'
        | (Panics msg, c') => (Panics msg, c')
        | (Hangs, c') => (Hangs, c')
        end
    end
  else (Returns evictedValues, c).

Definition Insert (key : string) (value : ValueType) (c : Cache)
  : result (list ValueType) * Cache :=
  match value with
  | None => (Panics "nil values are not supported", c)
  | Some v =>
      let updated : result Cache :=
        match index c !! key with
        | Some e =>
            match GoList.Value (entries c) e with
            | None => Panics nil_dereference
            | Some old =>
                match call_Weight (Value old) with
                | Returns w =>
                    let occ := sub64 (occupiedWeight c) w in
                    let occ := add64 occ (Weight v) in
                    let l := GoList.SetValue e (mkEntry key value) (entries c) in
                    let l := GoList.MoveToFront e l in
                    Returns (mkCache (maxWeight c) occ l (index c))
                | Panics msg => Panics msg
                | Hangs => Hangs
                end
            end
        | None =>
            let '(e, l) := GoList.PushFront (mkEntry key value) (entries c) in
            Returns (mkCache (maxWeight c)
                             (add64 (occupiedWeight c) (Weight v))
                             l
                             (<[key := e]> (index c)))
        end in
      match updated with
      | Returns c' => evictLoop (S (GoList.Len (entries c'))) [] c'
      | Panics msg => (Panics msg, c)
      | Hangs => (Hangs, c)
      end
  end.

(** In [Erase] the weight is asked of [value], the named result, which is
    still nil at that point, and not of [deletedEntry]. *)
Definition Erase (key : string) (c : Cache) : result ValueType * Cache :=
  let value : ValueType := None in
  match index c !! key with
  | None => (Returns value, c)
  | Some e =>
      match GoList.Value (entries c) e with
      | None => (Panics nil_dereference, c)
      | Some en =>
          let deletedEntry := Value en in
          match call_Weight value with
          | Returns w =>
              (Returns deletedEntry,
               mkCache (maxWeight c)
                       (sub64 (occupiedWeight c) w)
                       (GoList.Remove e (entries c))
                       (delete key (index c)))
          | Panics msg => (Panics msg, c)
          | Hangs => (Hangs, c)
          end
      end
  end.

Definition LookUp (key : string) (c : Cache) : result ValueType * Cache :=
  let value : ValueType := None in
  match index c !! key with
  | None => (Returns value, c)
  | Some e =>
      let l := GoList.MoveToFront e (entries c) in
      match GoList.Value l e with
      | None => (Panics nil_dereference, c)
      | Some en =>
          (Returns (Value en),
           mkCache (maxWeight c) (occupiedWeight c) l (index c))
      end
  end.

(** *** Gob encoding *)

Section gob.
Context {gob_uint64 : Gob Z} {gob_entries : Gob (list entry)}.

(** [GobEncode] only reads the cache. *)
Definition GobEncode (c : Cache) : list Byte.byte * error :=
  let entrySlice := GoList.values (entries c) in
  match gob_encode (maxWeight c) with
  | inl err => ([], Some ("encoding maxWeight: " +:+ err))
  | inr b1 =>
      match gob_encode (occupiedWeight c) with
      | inl err => ([], Some ("encoding occupiedWeight: " +:+ err))
      | inr b2 =>
          match gob_encode entrySlice with
          | inl err => ([], Some ("encoding entries: " +:+ err))
          | inr b3 => (b1 ++ b2 ++ b3, None)
          end
      end
  end.

(** The body of the loop [for _, entry := range entrySlice] of
    [GobDecode]. *)
Definition store (c : Cache) (en : entry) : Cache :=
  let '(e, l) := GoList.PushBack en (entries c) in
  mkCache (maxWeight c) (occupiedWeight c) l (<[Key en := e]> (index c)).

Definition GobDecode (b : list Byte.byte) (c : Cache) : result error * Cache :=
  match gob_decode b with
  | inl err => (Returns (Some ("decoding maxWeight: " +:+ err)), c)
  | inr (decodedMaxWeight, b) =>
      match gob_decode b with
      | inl err => (Returns (Some ("decoding occupiedWeight: " +:+ err)), c)
      | inr (decodedOccupiedWeight, b) =>
          match New decodedMaxWeight with
          | Returns c =>
              match gob_decode b with
              | inl err => (Returns (Some ("decoding entries: " +:+ err)), c)
              | inr (entrySlice, _) =>
                  let c := foldl store c entrySlice in
                  (Returns None,
                   mkCache (maxWeight c) decodedOccupiedWeight
                           (entries c) (index c))
              end
          | Panics msg => (Panics msg, c)
          | Hangs => (Hangs, c)
          end
      end
  end.

End gob.

(** *** What the properties of the cache are stated with *)

(** The weight an entry contributes ([Value.Weight()] of a stored value). *)
Definition weight_of (en : entry) : Z :=
  match Value en with
  | Some v => Weight v
  | None => 0
  end.

Definition sum_weights (cs : list (GoList.Element * entry)) : Z :=
  foldr (λ ce acc, weight_of (snd ce) + acc) 0 cs.

(** The sum of [Weight()] over the entries present, as an integer. *)
Definition totalWeight (c : Cache) : Z :=
  sum_weights (GoList.cells (entries c)).

(** The entries from most to least recently used. *)
Definition recency (c : Cache) : list entry := GoList.values (entries c).

(** The value the cache holds for a key: [c.index[key].Value.(entry).Value]. *)
Definition mapping (c : Cache) (key : string) : ValueType :=
  e ← index c !! key;
  en ← GoList.Value (entries c) e;
  Value en.

(** The invariants written in the declaration of [Cache], together with
    what the list model needs: the cells have distinct identities below
    [next], and no stored value is nil. *)
Record wf (c : Cache) : Prop := mkWf {
  wf_max : is_uint64 (maxWeight c);
  wf_nodup : NoDup (map fst (GoList.cells (entries c)));
  wf_next : ∀ ce, ce ∈ GoList.cells (entries c) →
                  (fst ce < GoList.next (entries c))%nat;
  wf_index : ∀ k e, index c !! k = Some e ↔
                    ∃ v, (e, mkEntry k v) ∈ GoList.cells (entries c);
  wf_nonnil : ∀ ce, ce ∈ GoList.cells (entries c) → is_Some (Value (snd ce));
  wf_weight : occupiedWeight c = totalWeight c mod uint64_modulus
}.

(** The index and the list hold the same elements: the part of [wf]
    that does not mention weights or values. *)
Definition indexed (c : Cache) : Prop :=
  NoDup (map fst (GoList.cells (entries c))) ∧
  (∀ ce, ce ∈ GoList.cells (entries c) → (fst ce < GoList.next (entries c))%nat) ∧
  (∀ k e, index c !! k = Some e ↔
          ∃ v, (e, mkEntry k v) ∈ GoList.cells (entries c)).

(** The value of the first entry of a recency list with the given key. *)
Fixpoint valueIn (key : string) (es : list entry) : ValueType :=
  match es with
  | [] => None
  | en :: es' => if decide (Key en = key) then Value en else valueIn key es'
  end.

(** The operations of the cache interface, and their effect on the cache.
    [step] gives the state of the cache when the call ends, also when it
    ends by a panic. *)
Inductive op : Type :=
| OpInsert (key : string) (value : ValueType)
| OpErase (key : string)
| OpLookUp (key : string).

Definition step (c : Cache) (o : op) : Cache :=
  match o with
  | OpInsert key value => snd (Insert key value c)
  | OpErase key => snd (Erase key c)
  | OpLookUp key => snd (LookUp key c)
  end.

Definition run (ops : list op) (c : Cache) : Cache := foldl step c ops.

(** A cache constructed by [New] and used through its interface since. *)
Definition reachable (c : Cache) : Prop :=
  ∃ (maxWeight : Z) (ops : list op),
    is_uint64 maxWeight ∧ c = run ops (mkCache maxWeight 0 GoList.empty ∅).

(** The values a sequence of operations inserts. *)
Definition inserted (ops : list op) : list V :=
  omap (λ o, match o with OpInsert _ value => value | _ => None end) ops.


End cache.

Arguments ValueType V : clear implicits.
Arguments entry V : clear implicits.
Arguments Cache V : clear implicits.
Arguments op V : clear implicits.

End lru.

(* ================================================================= *)
(** ** What a user of the cache observes *)

Module observe.
Section observe.
Import lru.
Context {V : Type} `{Weighted V}.

(** How a call of the cache interface ends. *)
Inductive answer : Type :=
| Inserted (r : result (list (ValueType V)))
| Erased (r : result (ValueType V))
| Looked (r : result (ValueType V)).

Definition answer_of (c : Cache V) (o : op V) : answer :=
  match o with
  | OpInsert key value => Inserted (fst (Insert key value c))
  | OpErase key => Erased (fst (Erase key c))
  | OpLookUp key => Looked (fst (LookUp key c))
  end.

(** How the calls of a sequence end, one after the other. *)
Fixpoint answers (ops : list (op V)) (c : Cache V) : list answer :=
  match ops with
  | [] => []
  | o :: ops' => answer_of c o :: answers ops' (step c o)
  end.

(** Two caches with the same capacity, the same occupied weight and the
    same entries in the same order; their list elements and indexes may
    differ. *)
Definition same_contents (c1 c2 : Cache V) : Prop :=
  maxWeight c1 = maxWeight c2 ∧
  occupiedWeight c1 = occupiedWeight c2 ∧
  recency c1 = recency c2.

(** The value of the last [Insert] of a non-nil value under [key] in a
    sequence of operations, nil when there is none. *)
Definition last_inserted (key : string) (ops : list (op V)) : ValueType V :=
  foldl (λ acc o,
           match o with
           | OpInsert k (Some v) => if decide (k = key) then Some v else acc
           | _ => acc
           end) None ops.

End observe.
Arguments answer V : clear implicits.
End observe.

(* ================================================================= *)
(** ** Types of other packages the download job uses *)

Module gcs.

(** [gcs.MinObject], with the fields the job reads: [Size] is a uint64,
    [Generation] an int64. *)
Record MinObject : Type := mkMinObject {
  Name : string;
  Size : Z;
  Generation : Z
}.

(** [gcs.Bucket]: of the interface the job calls [Name()] only. *)
Record Bucket : Type := mkBucket {
  Bucket_Name : string
}.

End gcs.

Module data.

Record FileInfoKey : Type := mkFileInfoKey {
  BucketName : string;
  ObjectName : string
}.

Record FileInfo : Type := mkFileInfo {
  Key : FileInfoKey;
  ObjectGeneration : Z;
  FileSize : Z;
  Offset : Z
}.

Record FileSpec : Type := mkFileSpec {
  Path : string
}.

(** Modelled from the spec: [FileInfo.Weight()], whose source is not part
    of the sources at hand.  "Weight for eviction purposes is defined as
    the number of cached bytes the entry represents (offset), not
    fileSize".  [Offset] is a uint64 field. *)
#[global] Instance FileInfo_Weighted : lru.Weighted FileInfo := {|
  lru.Weight fi := Offset fi mod uint64_modulus;
  lru.Weight_uint64 fi := Z.mod_pos_bound (Offset fi) uint64_modulus eq_refl
|}.

End data.

(* ================================================================= *)
(** ** Channels of job statuses

    The channels the job creates, by identity.  A channel has a capacity,
    the values sent and not yet received, and is open or closed.  No
    receiver runs inside a method of the job, so a send that finds the
    buffer full, or a nil channel, never completes; an identity without
    a channel stands for the nil channel.  [chan_log] records the sends
    and closes in the order they happen. *)

Module channel.
Section chan.
Context {T : Type}.

Record chan : Type := mkChan {
  capacity : nat;
  buffer : list T;
  closed : bool
}.

Inductive event : Type :=
| Sent (c : nat) (v : T)
| Closed (c : nat).

Record Chans : Type := mkChans {
  chan_of : gmap nat chan;
  chan_log : list event
}.

(** [make(chan T, capacity)] *)
Definition make (capacity : nat) (cs : Chans) : nat * Chans :=
  let c := fresh (dom (chan_of cs)) in
  (c, mkChans (<[c := mkChan capacity [] false]> (chan_of cs)) (chan_log cs)).

(** [c <- v] *)
Definition send (c : nat) (v : T) (cs : Chans) : result unit * Chans :=
  match chan_of cs !! c with
  | None => (Hangs, cs)
  | Some ch =>
      if closed ch then (Panics "send on closed channel", cs)
      else if bool_decide (length (buffer ch) < capacity ch)%nat then
        (Returns (),
         mkChans (<[c := mkChan (capacity ch) (buffer ch ++ [v]) false]> (chan_of cs))
                 (chan_log cs ++ [Sent c v]))
      else (Hangs, cs)
  end.

(** [close(c)] *)
Definition close (c : nat) (cs : Chans) : result unit * Chans :=
  match chan_of cs !! c with
  | None => (Panics "close of nil channel", cs)
  | Some ch =>
      if closed ch then (Panics "close of closed channel", cs)
      else
        (Returns (),
         mkChans (<[c := mkChan (capacity ch) (buffer ch) true]> (chan_of cs))
                 (chan_log cs ++ [Closed c]))
  end.

End chan.
Arguments chan T : clear implicits.
Arguments event T : clear implicits.
Arguments Chans T : clear implicits.
End channel.

(* ================================================================= *)
(** ** package downloader *)

Module downloader.

Definition jobStatusName : Type := string.

Definition NOT_STARTED : jobStatusName := "NOT_STARTED".
Definition DOWNLOADING : jobStatusName := "DOWNLOADING".
Definition COMPLETED : jobStatusName := "COMPLETED".
Definition FAILED : jobStatusName := "FAILED".
Definition CANCELLED : jobStatusName := "CANCELLED".

Record JobStatus : Type := mkJobStatus {
  Name : jobStatusName;
  Err : error;
  Offset : Z
}.

Record jobSubscriber : Type := mkJobSubscriber {
  notificationC : nat;
  subscribedOffset : Z
}.

(** A [context.Context]: whether it has been cancelled. *)
Record Context : Type := mkContext {
  ctx_done : bool
}.

(** The fields of [Job].  [object] is a pointer and [bucket] an interface
    value, stored as they are given: [None] is nil.  [fileInfoCache] is a
    pointer to a cache shared with the rest of the program: the cache it
    points to is a component of [State].  [subscribers] is a [list.List]
    that is only appended to and traversed from the front; it is modelled
    by the sequence of its values. *)
Record Job : Type := mkJob {
  object : option gcs.MinObject;
  bucket : option gcs.Bucket;
  sequentialReadSizeMb : Z;
  fileSpec : data.FileSpec;
  status : JobStatus;
  subscribers : list jobSubscriber;
  cancelCtx : Context
}.

(** A job with what it points to: the channels of its subscribers and the
    file info cache, [None] when the pointer [fileInfoCache] is nil. *)
Record State : Type := mkState {
  job : Job;
  chans : channel.Chans JobStatus;
  fileInfoCache : option (lru.Cache data.FileInfo)
}.

Definition with_job (st : State) (j : Job) : State :=
  mkState j (chans st) (fileInfoCache st).

Definition init (st : State) : result unit * State :=
  let j := job st in
  (Returns (),
   with_job st
     (mkJob (object j) (bucket j) (sequentialReadSizeMb j) (fileSpec j)
            (mkJobStatus NOT_STARTED None 0)
            []
            (mkContext false))).

(** [NewJob]; the cache and the channels that exist are what the new job
    points to. *)
Definition NewJob (object : option gcs.MinObject) (bucket : option gcs.Bucket)
    (fileInfoCache : option (lru.Cache data.FileInfo)) (sequentialReadSizeMb : Z)
    (fileSpec : data.FileSpec) (chans : channel.Chans JobStatus) : result unit * State :=
  let j := mkJob object bucket sequentialReadSizeMb fileSpec
                 (mkJobStatus "" None 0) [] (mkContext false) in
  init (mkState j chans fileInfoCache).

Definition Cancel (st : State) : result unit * State :=
  (Returns (), st).

Definition subscribe (subscribedOffset : Z) (st : State) : result nat * State :=
  let j := job st in
  let '(subscriberC, cs) := channel.make 1 (chans st) in
  (Returns subscriberC,
   mkState
     (mkJob (object j) (bucket j) (sequentialReadSizeMb j) (fileSpec j)
            (status j)
            (subscribers j ++ [mkJobSubscriber subscriberC subscribedOffset])
            (cancelCtx j))
     cs (fileInfoCache st)).

(** The condition under which [notifySubscribers] fires a subscriber. *)
Definition fires (status : JobStatus) (sub : jobSubscriber) : bool :=
  bool_decide (Name status = FAILED) || bool_decide (Name status = CANCELLED)
  || (subscribedOffset sub <=? Offset status).

(** The loop of [notifySubscribers] over the subscribers from [subItr]
    on; [kept] are the subscribers before [subItr] that stay in the list.
    The result carries the list of subscribers when the loop ends. *)
Fixpoint notifyLoop (status : JobStatus) (kept rest : list jobSubscriber)
    (cs : channel.Chans JobStatus)
  : result unit * list jobSubscriber * channel.Chans JobStatus :=
  match rest with
  | [] => (Returns (), kept, cs)
  | subItrValue :: nextSubItr =>
      if fires status subItrValue then
        match channel.send (notificationC subItrValue) status cs with
        | (Returns _, cs) =>
            match channel.close (notificationC subItrValue) cs with
            | (Returns _, cs) => notifyLoop status kept nextSubItr cs
            | (Panics msg, cs) => (Panics msg, kept ++ rest, cs)
            | (Hangs, cs) => (Hangs, kept ++ rest, cs)
            end
        | (Panics msg, cs) => (Panics msg, kept ++ rest, cs)
        | (Hangs, cs) => (Hangs, kept ++ rest, cs)
        end
      else notifyLoop status (kept ++ [subItrValue]) nextSubItr cs
  end.

Definition notifySubscribers (st : State) : result unit * State :=
  let j := job st in
  let '(r, subs, cs) := notifyLoop (status j) [] (subscribers j) (chans st) in
  (r,
   mkState
     (mkJob (object j) (bucket j) (sequentialReadSizeMb j) (fileSpec j)
            (status j) subs (cancelCtx j))
     cs (fileInfoCache st)).

Definition failWhileDownloading (downloadErr : error) (st : State)
  : result unit * State :=
  let j := job st in
  let status := mkJobStatus (Name (status j)) downloadErr (Offset (status j)) in
  let status := mkJobStatus FAILED (Err status) (Offset status) in
  notifySubscribers
    (with_job st
       (mkJob (object j) (bucket j) (sequentialReadSizeMb j) (fileSpec j)
              status (subscribers j) (cancelCtx j))).

(** What [updateFileInfoCache] calls in packages whose source is not part
    of the sources at hand.
    - [FileInfoKey_Key]: [FileInfoKey.Key()] of package data, the key name
      and the error it returns.
    - [FileInfoKey_format]: a [FileInfoKey] formatted with the verb [%s].
    - [Cache_Insert]: [Cache.Insert] of package lru, which has two results,
      the values evicted and an error, and works on the cache its
      receiver points to; [Cache_Insert_nil] is the call on a nil
      receiver.  The state of a cache of package lru is taken to be that
      of the [Cache] of package lrucache.
    - [Errorf]: the message of the error [fmt.Errorf] returns when it is
      called with a format and no operand.  The job passes it a message
      that is already formatted; [fmt.Errorf] reads that again as a
      format, so a ['%'] byte in it starts a verb. *)
Record Imports : Type := mkImports {
  FileInfoKey_Key : data.FileInfoKey → string * error;
  FileInfoKey_format : data.FileInfoKey → string;
  Cache_Insert :
    string → lru.ValueType data.FileInfo → lru.Cache data.FileInfo →
    result (list (lru.ValueType data.FileInfo) * error) * lru.Cache data.FileInfo;
  Cache_Insert_nil :
    string → lru.ValueType data.FileInfo →
    result (list (lru.ValueType data.FileInfo) * error);
  Errorf : string → string
}.

Section updateFileInfoCache.

Variable P : Imports.

(** [job.fileInfoCache.Insert(key, value)]: the call through the pointer. *)
Definition fileInfoCache_Insert (key : string) (value : lru.ValueType data.FileInfo)
    (cache : option (lru.Cache data.FileInfo))
  : result (list (lru.ValueType data.FileInfo) * error)
    * option (lru.Cache data.FileInfo) :=
  match cache with
  | Some c => let '(r, c) := Cache_Insert P key value c in (r, Some c)
  | None => (Cache_Insert_nil P key value, None)
  end.

(** [job.bucket.Name()] and [job.object.Name] panic when the interface or
    the pointer is nil, before anything else is done. *)
Definition updateFileInfoCache (st : State) : result error * State :=
  let j := job st in
  match bucket j, object j with
  | Some bucket, Some object =>
      let fileInfoKey :=
        data.mkFileInfoKey (gcs.Bucket_Name bucket) (gcs.Name object) in
      match FileInfoKey_Key P fileInfoKey with
      | (_, Some err) =>
          (Returns
             (Some (Errorf P
                      ("init: error while calling FileInfoKey.Key() for bucket "
                         +:+ data.BucketName fileInfoKey +:+ " and object "
                         +:+ data.ObjectName fileInfoKey +:+ " " +:+ err))),
           st)
      | (fileInfoKeyName, None) =>
          let updatedFileInfo :=
            data.mkFileInfo fileInfoKey (gcs.Generation object) (gcs.Size object)
                            (Offset (status j) mod uint64_modulus) in
          let '(r, cache) :=
            fileInfoCache_Insert fileInfoKeyName (Some updatedFileInfo)
                                 (fileInfoCache st) in
          match r with
          | Returns (_, Some err) =>
              (Returns
                 (Some (Errorf P
                          ("error while inserting updatedFileInfo to the FileInfoCache "
                             +:+ FileInfoKey_format P (data.Key updatedFileInfo)
                             +:+ ": " +:+ err))),
               mkState j (chans st) cache)
          | Returns (_, None) => (Returns None, mkState j (chans st) cache)
          | Panics msg => (Panics msg, mkState j (chans st) cache)
          | Hangs => (Hangs, mkState j (chans st) cache)
          end
      end
  | _, _ => (Panics nil_dereference, st)
  end.

End updateFileInfoCache.


(** [Download] returns its named result [jobStatus], which nothing
    assigns. *)
Definition Download (ctx : Context) (offset : Z) (waitForDownload : bool)
    (st : State) : result JobStatus * State :=
  let jobStatus := mkJobStatus "" None 0 in
  (Returns jobStatus, st).

(** *** What the properties of the job are stated with *)

Definition terminal (name : jobStatusName) : Prop :=
  name = COMPLETED ∨ name = FAILED ∨ name = CANCELLED.

(** The channel of a subscriber that has not been fired: as [subscribe]
    made it. *)
Definition waiting (cs : channel.Chans JobStatus) (sub : jobSubscriber) : Prop :=
  channel.chan_of cs !! notificationC sub = Some (channel.mkChan 1 [] false).

(** The channel of a subscriber fired with [status]: it holds [status]
    and is closed. *)
Definition fired (cs : channel.Chans JobStatus) (status : JobStatus)
    (sub : jobSubscriber) : Prop :=
  channel.chan_of cs !! notificationC sub = Some (channel.mkChan 1 [status] true).

(** Every subscriber in the list waits on a channel of its own. *)
Definition subscribers_wait (st : State) : Prop :=
  NoDup (map notificationC (subscribers (job st))) ∧
  ∀ sub, sub ∈ subscribers (job st) → waiting (chans st) sub.

(** The calls on a job, and the state of the job when a call ends. *)
Inductive call : Type :=
| CallDownload (ctx : Context) (offset : Z) (waitForDownload : bool)
| CallCancel
| CallFailWhileDownloading (downloadErr : error)
| CallSubscribe (subscribedOffset : Z)
| CallNotifySubscribers
| CallUpdateFileInfoCache.

Definition step (P : Imports) (st : State) (k : call) : State :=
  match k with
  | CallDownload ctx offset waitForDownload =>
      snd (Download ctx offset waitForDownload st)
  | CallCancel => snd (Cancel st)
  | CallFailWhileDownloading downloadErr => snd (failWhileDownloading downloadErr st)
  | CallSubscribe subscribedOffset => snd (subscribe subscribedOffset st)
  | CallNotifySubscribers => snd (notifySubscribers st)
  | CallUpdateFileInfoCache => snd (updateFileInfoCache P st)
  end.

Definition run (P : Imports) (calls : list call) (st : State) : State :=
  foldl (step P) st calls.

End downloader.

(* ================================================================= *)
(** ** package inode: the name of an inode

    A Go string is a sequence of bytes; so is a [string] here. *)

Module inode.

Record Name : Type := mkName {
  objectName : string
}.

(** [s[len(s)-1]], for a string that is not empty. *)
Fixpoint last_byte (s : string) : option Ascii.ascii :=
  match s with
  | EmptyString => None
  | String a EmptyString => Some a
  | String _ s' => last_byte s'
  end.

(** The byte ['/']. *)
Definition slash : Ascii.ascii := Ascii.ascii_of_nat 47.

Definition ends_with_slash (s : string) : bool :=
  match last_byte s with
  | Some a => Ascii.eqb a slash
  | None => false
  end.

Definition NewRootName : Name := mkName "".

Definition IsDir (name : Name) : bool :=
  let isBucketRoot := bool_decide (objectName name = "") in
  isBucketRoot || ends_with_slash (objectName name).

Definition IsFile (name : Name) : bool := negb (IsDir name).

Definition GcsObjectName (name : Name) : string := objectName name.

Definition LocalName (name : Name) : string := objectName name.

(** The method [String()]. *)
Definition Name_String (name : Name) : string := LocalName name.

Definition NewDirName (parentName : Name) (dirName : string) : result Name :=
  if IsFile parentName || bool_decide (dirName = "") then
    Panics ("Inode '" +:+ Name_String parentName +:+
            "' cannot have child subdirectory '" +:+ dirName +:+ "'")
  else
    let dirName :=
      if negb (ends_with_slash dirName) then dirName +:+ "/" else dirName in
    Returns (mkName (objectName parentName +:+ dirName)).

Definition NewFileName (parentName : Name) (fileName : string) : result Name :=
  if IsFile parentName || bool_decide (fileName = "") then
    Panics ("Inode '" +:+ Name_String parentName +:+
            "' cannot have child file '" +:+ fileName +:+ "'")
  else
    Returns (mkName (objectName parentName +:+ fileName)).

(** The name reached from [name] through the directories [dirNames], one
    [NewDirName] after the other. *)
Fixpoint descend (name : Name) (dirNames : list string) : result Name :=
  match dirNames with
  | [] => Returns name
  | dirName :: dirNames' =>
      match NewDirName name dirName with
      | Returns child => descend child dirNames'
      | Panics msg => Panics msg
      | Hangs => Hangs
      end
  end.

(** A directory name as [NewDirName] writes it: with a slash at the end. *)
Definition with_slash (dirName : string) : string :=
  if ends_with_slash dirName then dirName else dirName +:+ "/".

End inode.

(* ================================================================= *)
(** ** What a caller of the job observes *)

Module jobcalls.



(** Every channel the job has made is accounted for: either it is as
    [subscribe] made it and its subscriber is in the list, or it holds
    one status and is closed. *)
Definition accounted (st : downloader.State) : Prop :=
  ∀ c ch,
    channel.chan_of (downloader.chans st) !! c = Some ch →
    (ch = channel.mkChan 1 [] false ∧
     c ∈ map downloader.notificationC (downloader.subscribers (downloader.job st))) ∨
    (∃ status, ch = channel.mkChan 1 [status] true).

End jobcalls.

(* ================================================================= *)
(** ** Values for the scenarios

    A named blob with a size; its weight is its size. *)

Record blob : Type := mkBlob {
  blob_name : string;
  blob_size : N
}.

#[global] Instance blob_Weighted : lru.Weighted blob := {|
  lru.Weight b := Z.of_N (blob_size b) mod uint64_modulus;
  lru.Weight_uint64 b :=
    Z.mod_pos_bound (Z.of_N (blob_size b)) uint64_modulus eq_refl
|}.

(** A job for the scenarios: an object of 2,000,000 bytes, a file info
    cache of capacity 1000 and no channel yet; the key of a file info is
    taken to be "bucket/object". *)

Definition scenario_key (k : data.FileInfoKey) : string * error :=
  (data.BucketName k +:+ "/" +:+ data.ObjectName k, None).

(** Modelled from the spec: [Cache.Insert] of package lru, which the job
    calls and whose source is not part of the sources at hand (the
    [Insert] of package lrucache has one result).  "Overwrites any
    existing entry for key, correctly adjusting the running weight by the
    delta between old and new weight, and marks the key
    most-recently-used.  Then evicts from the least-recently-used end, one
    entry at a time, until running weight ≤ maxWeight; returns every
    evicted value in eviction order": this is what the [Insert] of package
    lrucache does.  The spec gives [Insert] no error: the error is nil. *)
Definition Cache_Insert_spec {V : Type} `{lru.Weighted V}
    (key : string) (value : lru.ValueType V) (c : lru.Cache V)
  : result (list (lru.ValueType V) * error) * lru.Cache V :=
  match lru.Insert key value c with
  | (Returns evicted, c) => (Returns (evicted, None), c)
  | (Panics msg, c) => (Panics msg, c)
  | (Hangs, c) => (Hangs, c)
  end.

(** The same call on a nil receiver: "fails (panics/aborts) if value is
    absent/null"; with a value there is no cache to work on, and the read
    of a field of the receiver panics. *)
Definition Cache_Insert_nil_spec {V : Type}
    (key : string) (value : lru.ValueType V)
  : result (list (lru.ValueType V) * error) :=
  match value with
  | None => Panics "nil values are not supported"
  | Some _ => Panics nil_dereference
  end.

(** The imports of the scenarios: [%s] writes a key as a struct of two
    strings, and no message of the scenarios has a ['%'], so that
    [fmt.Errorf] returns its format. *)
Definition scenario_imports : downloader.Imports :=
  downloader.mkImports
    scenario_key
    (λ k, "{" +:+ data.BucketName k +:+ " " +:+ data.ObjectName k +:+ "}")
    Cache_Insert_spec
    Cache_Insert_nil_spec
    (λ format, format).

Definition scenario_job : downloader.State :=
  snd (downloader.NewJob
         (Some (gcs.mkMinObject "dir/file.txt" 2000000 7))
         (Some (gcs.mkBucket "bucket"))
         (Some (lru.mkCache 1000 0 GoList.empty ∅))
         200
         (data.mkFileSpec "/cache/bucket/dir/file.txt")
         (channel.mkChans ∅ [])).

(** The same job with subscribers for the offsets 10, 1000 and 1,000,000,
    when 50 bytes have been downloaded. *)
Definition scenario_downloading : downloader.State :=
  let st := downloader.run scenario_imports
              [downloader.CallSubscribe 10;
               downloader.CallSubscribe 1000;
               downloader.CallSubscribe 1000000] scenario_job in
  let j := downloader.job st in
  downloader.with_job st
    (downloader.mkJob (downloader.object j) (downloader.bucket j)
       (downloader.sequentialReadSizeMb j) (downloader.fileSpec j)
       (downloader.mkJobStatus downloader.DOWNLOADING None 50)
       (downloader.subscribers j) (downloader.cancelCtx j)).

(** The file info of the object of the scenarios when [offset] bytes are
    cached. *)
Definition scenario_fileInfo (offset : Z) : data.FileInfo :=
  data.mkFileInfo (data.mkFileInfoKey "bucket" "dir/file.txt") 7 2000000 offset.

(** A file info cache of capacity 1000 that holds the object of the
    scenarios with 10 bytes cached and, more recently used, another
    object with 20 bytes cached. *)
Definition scenario_fileInfoCache : lru.Cache data.FileInfo :=
  lru.run
    [lru.OpInsert "bucket/dir/file.txt" (Some (scenario_fileInfo 10));
     lru.OpInsert "bucket/other.txt"
       (Some (data.mkFileInfo (data.mkFileInfoKey "bucket" "other.txt") 3 500 20))]
    (lru.mkCache 1000 0 GoList.empty ∅).

(** The job of the scenarios on that cache, when [offset] bytes have been
    downloaded. *)
Definition scenario_progress (offset : Z) : downloader.State :=
  let j := downloader.job scenario_downloading in
  downloader.mkState
    (downloader.mkJob (downloader.object j) (downloader.bucket j)
       (downloader.sequentialReadSizeMb j) (downloader.fileSpec j)
       (downloader.mkJobStatus downloader.DOWNLOADING None offset)
       (downloader.subscribers j) (downloader.cancelCtx j))
    (downloader.chans scenario_downloading)
    (Some scenario_fileInfoCache).

(** A cache for the scenarios: capacity 10, holding "B" and "A" (most
    recent first) with values of weight 4. *)
Definition scenario_cache : lru.Cache blob :=
  lru.run [lru.OpInsert "A" (Some (mkBlob "a" 4));
           lru.OpInsert "B" (Some (mkBlob "b" 4))]
          (lru.mkCache 10 0 GoList.empty ∅).

(** A self-delimiting byte encoding of numbers, strings, blobs and cache
    entries, to have instances of [Gob] in the scenarios.  A number is
    written in unary, a string character by character. *)

Module wire.

Fixpoint enc_nat (n : nat) : list Byte.byte :=
  match n with
  | O => [Byte.x00]
  | S n' => Byte.x01 :: enc_nat n'
  end.

Fixpoint dec_nat (bs : list Byte.byte) : option (nat * list Byte.byte) :=
  match bs with
  | [] => None
  | b :: r =>
      if Byte.eqb b Byte.x00 then Some (O, r)
      else if Byte.eqb b Byte.x01 then
        match dec_nat r with
        | Some (n, r') => Some (S n, r')
        | None => None
        end
      else None
  end.

Fixpoint enc_string (s : string) : list Byte.byte :=
  match s with
  | EmptyString => [Byte.x00]
  | String a s' => Byte.x01 :: Ascii.byte_of_ascii a :: enc_string s'
  end.

Fixpoint dec_string (bs : list Byte.byte) : option (string * list Byte.byte) :=
  match bs with
  | [] => None
  | b :: r =>
      if Byte.eqb b Byte.x00 then Some (EmptyString, r)
      else
        match r with
        | [] => None
        | a :: r' =>
            match dec_string r' with
            | Some (s, r'') => Some (String (Ascii.ascii_of_byte a) s, r'')
            | None => None
            end
        end
  end.

Definition enc_blob (v : blob) : list Byte.byte :=
  enc_string (blob_name v) ++ enc_nat (N.to_nat (blob_size v)).

Definition dec_blob (bs : list Byte.byte) : option (blob * list Byte.byte) :=
  match dec_string bs with
  | Some (s, r) =>
      match dec_nat r with
      | Some (n, r') => Some (mkBlob s (N.of_nat n), r')
      | None => None
      end
  | None => None
  end.

Definition enc_entry (en : lru.entry blob) : list Byte.byte :=
  enc_string (lru.Key en) ++
  match lru.Value en with
  | None => [Byte.x00]
  | Some v => Byte.x01 :: enc_blob v
  end.

Definition dec_entry (bs : list Byte.byte) : option (lru.entry blob * list Byte.byte) :=
  match dec_string bs with
  | Some (k, []) => None
  | Some (k, b :: r) =>
      if Byte.eqb b Byte.x00 then Some (lru.mkEntry k None, r)
      else
        match dec_blob r with
        | Some (v, r') => Some (lru.mkEntry k (Some v), r')
        | None => None
        end
  | None => None
  end.

Fixpoint dec_entries (n : nat) (bs : list Byte.byte)
  : option (list (lru.entry blob) * list Byte.byte) :=
  match n with
  | O => Some ([], bs)
  | S n' =>
      match dec_entry bs with
      | Some (en, r) =>
          match dec_entries n' r with
          | Some (es, r') => Some (en :: es, r')
          | None => None
          end
      | None => None
      end
  end.

#[global] Instance uint64_Gob : Gob Z := {|
  gob_encode z :=
    if 0 <=? z then inr (enc_nat (Z.to_nat z)) else inl "negative number";
  gob_decode bs :=
    match dec_nat bs with
    | Some (n, r) => inr (Z.of_nat n, r)
    | None => inl "unexpected data"
    end
|}.

#[global] Instance entries_Gob : Gob (list (lru.entry blob)) := {|
  gob_encode es := inr (enc_nat (length es) ++ flat_map enc_entry es);
  gob_decode bs :=
    match dec_nat bs with
    | Some (n, r) =>
        match dec_entries n r with
        | Some (es, r') => inr (es, r')
        | None => inl "unexpected data"
        end
    | None => inl "unexpected data"
    end
|}.

End wire.

(* ================================================================= *)
(** * Properties *)

(** ** Facts about the list model *)

Section GoListFacts.
Context {A : Type}.
Implicit Types (cs : list (GoList.Element * A)) (e : GoList.Element) (v : A).

Lemma lookup_cell_Some_elem cs e v :
  GoList.lookup_cell e cs = Some v → (e, v) ∈ cs.
Proof.
  induction cs as [|[e' v'] cs IH]; simpl; [done|].
  case_decide as He.
  - intros [= ->]. subst. left.
  - intros Hl. right. auto.
Qed.

Lemma elem_of_map_fst cs e v : (e, v) ∈ cs → e ∈ map fst cs.
Proof. intros Hin. change e with (fst (e, v)). by apply list_elem_of_fmap_2. Qed.

Lemma lookup_cell_elem cs e v :
  NoDup (map fst cs) → (e, v) ∈ cs → GoList.lookup_cell e cs = Some v.
Proof.
  induction cs as [|[e' v'] cs IH]; simpl; intros Hnd Hin.
  - by apply elem_of_nil in Hin.
  - apply NoDup_cons in Hnd as [Hnotin Hnd].
    apply elem_of_cons in Hin as [[= -> ->]|Hin].
    + by rewrite decide_True.
    + rewrite decide_False; [by apply IH|].
      intros ->. apply Hnotin. by eapply elem_of_map_fst.
Qed.

Lemma elem_of_without cs e x :
  x ∈ GoList.without e cs ↔ x ∈ cs ∧ fst x ≠ e.
Proof. unfold GoList.without. rewrite list_elem_of_filter. tauto. Qed.

Lemma without_notin cs e : e ∉ map fst cs → GoList.without e cs = cs.
Proof.
  induction cs as [|[e' v'] cs IH]; simpl; [done|].
  rewrite not_elem_of_cons. intros [Hne Hn].
  unfold GoList.without. rewrite filter_cons_True; [|simpl; congruence].
  f_equal. by apply IH.
Qed.

Lemma without_app cs1 cs2 e :
  GoList.without e (cs1 ++ cs2) = GoList.without e cs1 ++ GoList.without e cs2.
Proof. apply filter_app. Qed.

Lemma without_last cs e v :
  NoDup (map fst (cs ++ [(e, v)])) → GoList.without e (cs ++ [(e, v)]) = cs.
Proof.
  rewrite map_app. simpl. intros Hnd.
  apply NoDup_app in Hnd as (_ & Hdisj & _).
  rewrite without_app, without_notin.
  - unfold GoList.without. rewrite filter_cons_False; [|simpl; tauto].
    by rewrite filter_nil, app_nil_r.
  - intros Hin. apply (Hdisj e Hin). left.
Qed.

Lemma map_fst_without cs e :
  map fst (GoList.without e cs) = filter (λ x, x ≠ e) (map fst cs).
Proof.
  induction cs as [|[e' v'] cs IH]; simpl; [done|].
  unfold GoList.without in *. destruct (decide (e' = e)) as [->|Hne].
  - rewrite filter_cons_False by (simpl; tauto).
    rewrite (filter_cons_False (λ x, x ≠ e)) by tauto. done.
  - rewrite filter_cons_True by (simpl; done).
    rewrite (filter_cons_True (λ x, x ≠ e)) by done. simpl. by f_equal.
Qed.

Lemma NoDup_without cs e :
  NoDup (map fst cs) → NoDup (map fst (GoList.without e cs)).
Proof. intros Hnd. rewrite map_fst_without. by apply NoDup_filter. Qed.

Lemma not_elem_of_without cs e : e ∉ map fst (GoList.without e cs).
Proof.
  rewrite map_fst_without, list_elem_of_filter. tauto.
Qed.

Lemma length_without cs e : (length (GoList.without e cs) ≤ length cs)%nat.
Proof. apply length_filter. Qed.

Lemma length_without_last cs e v :
  (length (GoList.without e (cs ++ [(e, v)])) ≤ length cs)%nat.
Proof.
  rewrite without_app. unfold GoList.without at 2.
  rewrite filter_cons_False by (simpl; tauto).
  rewrite filter_nil, app_nil_r. apply length_without.
Qed.

Lemma cell_unique cs e v1 v2 :
  NoDup (map fst cs) → (e, v1) ∈ cs → (e, v2) ∈ cs → v1 = v2.
Proof.
  intros Hnd H1 H2.
  apply (lookup_cell_elem _ _ _ Hnd) in H1, H2. congruence.
Qed.

Lemma without_set cs e v :
  GoList.without e (map (λ c, if decide (fst c = e) then (e, v) else c) cs)
  = GoList.without e cs.
Proof.
  induction cs as [|[e' v'] cs IH]; simpl; [done|].
  unfold GoList.without in *. destruct (decide (e' = e)) as [->|Hne].
  - rewrite !filter_cons_False by (simpl; tauto). done.
  - rewrite !filter_cons_True by (simpl; done). by f_equal.
Qed.

Lemma lookup_cell_set cs e v old :
  GoList.lookup_cell e cs = Some old →
  GoList.lookup_cell e (map (λ c, if decide (fst c = e) then (e, v) else c) cs)
  = Some v.
Proof.
  induction cs as [|[e' v'] cs IH]; simpl; [done|].
  destruct (decide (e' = e)) as [->|Hne]; simpl.
  - by rewrite decide_True.
  - rewrite decide_False by done. done.
Qed.

Lemma MoveToFront_hit (l : GoList.List A) e v :
  GoList.Value l e = Some v →
  GoList.MoveToFront e l
  = GoList.mkList ((e, v) :: GoList.without e (GoList.cells l)) (GoList.next l).
Proof. unfold GoList.MoveToFront. by intros ->. Qed.

Lemma MoveToFront_SetValue (l : GoList.List A) e v old :
  GoList.Value l e = Some old →
  GoList.MoveToFront e (GoList.SetValue e v l)
  = GoList.mkList ((e, v) :: GoList.without e (GoList.cells l)) (GoList.next l).
Proof.
  intros Hold. erewrite MoveToFront_hit.
  - simpl. by rewrite without_set.
  - unfold GoList.Value. simpl. by eapply lookup_cell_set.
Qed.

Lemma Back_Some (l : GoList.List A) e v :
  GoList.Back l = Some (e, v) ↔ ∃ cs, GoList.cells l = cs ++ [(e, v)].
Proof. unfold GoList.Back. apply last_Some. Qed.

Lemma Back_None (l : GoList.List A) :
  GoList.Back l = None ↔ GoList.cells l = [].
Proof. unfold GoList.Back. apply last_None. Qed.

Lemma Remove_Back (l : GoList.List A) cs e v :
  NoDup (map fst (GoList.cells l)) →
  GoList.cells l = cs ++ [(e, v)] →
  GoList.Remove e l = GoList.mkList cs (GoList.next l).
Proof.
  intros Hnd Hcs. unfold GoList.Remove. rewrite Hcs in *.
  by rewrite without_last.
Qed.

End GoListFacts.

(** ** Facts about uint64 arithmetic *)

Lemma uint64_modulus_pos : 0 < uint64_modulus.
Proof. reflexivity. Qed.

Lemma add64_mod x w : add64 (x mod uint64_modulus) w = (x + w) mod uint64_modulus.
Proof. unfold add64. by rewrite Z.add_mod_idemp_l. Qed.

Lemma sub64_mod x w : sub64 (x mod uint64_modulus) w = (x - w) mod uint64_modulus.
Proof. unfold sub64. by rewrite Zminus_mod_idemp_l. Qed.

Lemma mod64_small x : is_uint64 x → x mod uint64_modulus = x.
Proof. intros Hx. by apply Z.mod_small. Qed.

Lemma mod64_range x : is_uint64 (x mod uint64_modulus).
Proof. apply Z.mod_pos_bound, uint64_modulus_pos. Qed.

(** ** The invariant of the cache *)

Section CacheFacts.
Import lru.
Context {V : Type} `{Weighted V}.
Implicit Types (c : Cache V) (en : entry V) (k key : string) (e : GoList.Element)
  (cs : list (GoList.Element * entry V)).

Lemma weight_of_nonneg en : 0 <= weight_of en.
Proof.
  unfold weight_of. destruct (Value en) as [v|]; [|done].
  apply (Weight_uint64 v).
Qed.

Lemma sum_weights_nonneg cs : 0 <= sum_weights cs.
Proof.
  induction cs as [|ce cs IH]; simpl; [done|].
  pose proof (weight_of_nonneg (snd ce)). lia.
Qed.

Lemma sum_weights_app cs1 cs2 :
  sum_weights (cs1 ++ cs2) = sum_weights cs1 + sum_weights cs2.
Proof. induction cs1 as [|ce cs1 IH]; simpl; lia. Qed.

Lemma sum_weights_without cs e en :
  NoDup (map fst cs) → (e, en) ∈ cs →
  sum_weights cs = weight_of en + sum_weights (GoList.without e cs).
Proof.
  induction cs as [|[e' en'] cs IH]; simpl; intros Hnd Hin.
  - by apply elem_of_nil in Hin.
  - apply NoDup_cons in Hnd as [Hnotin Hnd].
    unfold GoList.without in *.
    apply elem_of_cons in Hin as [[= -> ->]|Hin].
    + rewrite filter_cons_False by (simpl; tauto).
      fold (GoList.without e' cs). by rewrite without_notin.
    + assert (e' ≠ e) as Hne.
      { intros ->. apply Hnotin. by eapply elem_of_map_fst. }
      rewrite filter_cons_True by (simpl; done). simpl.
      rewrite (IH Hnd Hin). lia.
Qed.

Lemma entry_eta en : mkEntry (Key en) (Value en) = en.
Proof. by destruct en. Qed.

Lemma wf_index_cell c e en :
  wf c → (e, en) ∈ GoList.cells (entries c) → index c !! Key en = Some e.
Proof.
  intros Hwf Hin. apply (wf_index c Hwf). exists (Value en).
  by rewrite entry_eta.
Qed.

Lemma wf_index_Value c k e :
  wf c → index c !! k = Some e →
  ∃ v, GoList.Value (entries c) e = Some (mkEntry k (Some v)).
Proof.
  intros Hwf Hidx. apply (wf_index c Hwf) in Hidx as [v Hin].
  destruct (wf_nonnil c Hwf _ Hin) as [x Hx]. simpl in Hx. subst v.
  exists x. apply lookup_cell_elem; [apply Hwf | done].
Qed.

Lemma wf_empty m : is_uint64 m → wf (mkCache m 0 GoList.empty ∅).
Proof.
  intros Hm. split; simpl; try done.
  - constructor.
  - intros ce Hin. by apply elem_of_nil in Hin.
  - intros k e. rewrite lookup_empty. split; [done|].
    intros [v Hin]. by apply elem_of_nil in Hin.
  - intros ce Hin. by apply elem_of_nil in Hin.
Qed.

(** A new cell at the front, for a key the index does not have. *)
Lemma wf_push_front c k v :
  wf c → index c !! k = None →
  wf (mkCache (maxWeight c)
              (add64 (occupiedWeight c) (Weight v))
              (GoList.mkList
                 ((GoList.next (entries c), mkEntry k (Some v))
                    :: GoList.cells (entries c))
                 (S (GoList.next (entries c))))
              (<[k := GoList.next (entries c)]> (index c))).
Proof.
  intros Hwf Hk. split; simpl.
  - apply Hwf.
  - apply NoDup_cons. split; [|apply Hwf].
    intros Hin. apply list_elem_of_fmap in Hin as (ce & Heq & Hin).
    apply (wf_next c Hwf) in Hin. lia.
  - intros ce Hin. apply elem_of_cons in Hin as [->|Hin]; simpl; [lia|].
    apply (wf_next c Hwf) in Hin. lia.
  - intros k' e'. rewrite lookup_insert. case_decide as Hkk.
    + subst k'. split.
      * intros [= <-]. exists (Some v). left.
      * intros [v' Hin]. apply elem_of_cons in Hin as [[= -> ->]|Hin]; [done|].
        assert (index c !! k = Some e') as Hidx
          by (apply (wf_index c Hwf); eauto).
        congruence.
    + rewrite (wf_index c Hwf). split; intros [v' Hin]; exists v'.
      * by right.
      * apply elem_of_cons in Hin as [[= -> -> ->]|Hin]; [done|done].
  - intros ce Hin. apply elem_of_cons in Hin as [->|Hin]; simpl; [eauto|].
    by apply (wf_nonnil c Hwf).
  - unfold totalWeight. simpl. unfold weight_of at 1. simpl.
    rewrite (wf_weight c Hwf), add64_mod. f_equal. unfold totalWeight. lia.
Qed.

(** The cell of an indexed key moved to the front, with any non-nil value. *)
Lemma wf_promote c k e en occ :
  wf c → index c !! k = Some e →
  Key en = k → is_Some (Value en) →
  occ = (weight_of en + sum_weights (GoList.without e (GoList.cells (entries c))))
          mod uint64_modulus →
  wf (mkCache (maxWeight c) occ
              (GoList.mkList ((e, en) :: GoList.without e (GoList.cells (entries c)))
                             (GoList.next (entries c)))
              (index c)).
Proof.
  intros Hwf Hidx Hkey Hval Hocc.
  pose proof (proj1 (wf_index c Hwf k e) Hidx) as [v0 Hin0].
  split; simpl.
  - apply Hwf.
  - apply NoDup_cons. split; [apply not_elem_of_without|].
    apply NoDup_without, Hwf.
  - intros ce Hin. apply elem_of_cons in Hin as [->|Hin]; simpl.
    + by apply (wf_next c Hwf _ Hin0).
    + apply elem_of_without in Hin as [Hin _]. by apply (wf_next c Hwf).
  - intros k' e'. split.
    + intros Hidx'. pose proof (proj1 (wf_index c Hwf k' e') Hidx') as [v' Hin'].
      destruct (decide (e' = e)) as [->|Hne].
      * pose proof (cell_unique _ _ _ _ (wf_nodup c Hwf) Hin0 Hin') as [= <- <-].
        exists (Value en). rewrite <- Hkey, entry_eta. left.
      * exists v'. right. apply elem_of_without. done.
    + intros [v' Hin]. apply elem_of_cons in Hin as [[= -> <-]|Hin].
      * simpl in *. by subst k'.
      * apply elem_of_without in Hin as [Hin _].
        apply (wf_index c Hwf). eauto.
  - intros ce Hin. apply elem_of_cons in Hin as [->|Hin]; simpl; [done|].
    apply elem_of_without in Hin as [Hin _]. by apply (wf_nonnil c Hwf).
  - done.
Qed.

(** The last cell removed, as [evictOne] does. *)
Lemma wf_evict c cs e en :
  wf c → GoList.cells (entries c) = cs ++ [(e, en)] →
  wf (mkCache (maxWeight c)
              (sub64 (occupiedWeight c) (weight_of en))
              (GoList.mkList cs (GoList.next (entries c)))
              (delete (Key en) (index c))).
Proof.
  intros Hwf Hcs.
  pose proof (wf_nodup c Hwf) as Hnd. rewrite Hcs, map_app in Hnd.
  apply NoDup_app in Hnd as (Hnd & Hdisj & _).
  assert (∀ ce, ce ∈ cs → ce ∈ GoList.cells (entries c)) as Hsub.
  { intros ce Hin. rewrite Hcs. apply elem_of_app. by left. }
  assert ((e, en) ∈ GoList.cells (entries c)) as Hlast.
  { rewrite Hcs. apply elem_of_app. right. left. }
  split; simpl.
  - apply Hwf.
  - done.
  - intros ce Hin. by apply (wf_next c Hwf), Hsub.
  - intros k' e'. rewrite lookup_delete. case_decide as Hkk.
    + split; [done|]. intros [v' Hin]. exfalso.
      pose proof (wf_index_cell c _ _ Hwf Hlast) as Hi1.
      pose proof (wf_index_cell c _ _ Hwf (Hsub _ Hin)) as Hi2.
      simpl in Hi2. rewrite <- Hkk, Hi1 in Hi2. injection Hi2 as <-.
      apply (Hdisj e).
      * by eapply elem_of_map_fst.
      * left.
    + rewrite (wf_index c Hwf), Hcs. split; intros [v' Hin]; exists v'.
      * apply elem_of_app in Hin as [Hin|Hin]; [done|].
        apply list_elem_of_singleton in Hin as [= -> <-]. done.
      * apply elem_of_app. by left.
  - intros ce Hin. by apply (wf_nonnil c Hwf), Hsub.
  - unfold totalWeight. simpl. rewrite (wf_weight c Hwf), sub64_mod.
    f_equal. unfold totalWeight. rewrite Hcs, sum_weights_app. simpl. lia.
Qed.

(** *** The fuel of the eviction loop is enough *)

Lemma evictOne_shrinks c v c' :
  evictOne c = (Returns v, c') →
  (GoList.Len (entries c') < GoList.Len (entries c))%nat.
Proof.
  unfold evictOne.
  destruct (GoList.Back (entries c)) as [[e en]|] eqn:Hback; [|done].
  apply Back_Some in Hback as [cs Hcs].
  destruct (call_Weight (Value en)); [|done|done].
  intros [= _ <-]. unfold GoList.Len. simpl. rewrite Hcs.
  pose proof (length_without_last cs e en). rewrite length_app. simpl. lia.
Qed.

(** On every cache, whatever its state, the loop ends within as many
    iterations as the list has cells and one more. *)
Lemma evictLoop_fuel fuel evs c :
  (GoList.Len (entries c) < fuel)%nat → fst (evictLoop fuel evs c) ≠ Hangs.
Proof.
  revert evs c. induction fuel as [|fuel IH]; intros evs c Hlen; [lia|].
  simpl. destruct (maxWeight c <? occupiedWeight c); [|done].
  destruct (evictOne c) as [[v|msg|] c'] eqn:Hev; [|done|].
  - apply IH. apply evictOne_shrinks in Hev. lia.
  - exfalso. unfold evictOne in Hev.
    destruct (GoList.Back (entries c)) as [[e en]|]; [|done].
    by destruct (Value en).
Qed.

(** [Insert] ends on every cache and for every argument: it returns or
    panics. *)
Lemma Insert_ends key value c : fst (Insert key value c) ≠ Hangs.
Proof.
  unfold Insert. destruct value as [v|]; [|done].
  destruct (index c !! key) as [e|].
  - destruct (GoList.Value (entries c) e) as [old|]; [|done].
    destruct (Value old) as [v0|]; [|done]. cbn -[evictLoop].
    apply evictLoop_fuel. cbn [entries]. lia.
  - cbn -[evictLoop]. apply evictLoop_fuel. cbn. lia.
Qed.

(** *** The steps of [Insert] and [LookUp], on any cache *)

Lemma Insert_absent key v c :
  index c !! key = None →
  Insert key (Some v) c =
    evictLoop (S (S (GoList.Len (entries c)))) []
      (mkCache (maxWeight c)
               (add64 (occupiedWeight c) (Weight v))
               (GoList.mkList
                  ((GoList.next (entries c), mkEntry key (Some v))
                     :: GoList.cells (entries c))
                  (S (GoList.next (entries c))))
               (<[key := GoList.next (entries c)]> (index c))).
Proof. intros Hidx. unfold Insert. by rewrite Hidx. Qed.

Lemma evictLoop_done fuel evs c :
  occupiedWeight c <= maxWeight c → evictLoop fuel evs c = (Returns evs, c).
Proof.
  intros Hle. apply Z.ltb_ge in Hle. destruct fuel; simpl; by rewrite Hle.
Qed.

Lemma evictLoop_evict fuel evs c cs e key v :
  maxWeight c < occupiedWeight c →
  GoList.cells (entries c) = cs ++ [(e, mkEntry key (Some v))] →
  e ∉ map fst cs →
  evictLoop (S fuel) evs c =
    evictLoop fuel (evs ++ [Some v])
      (mkCache (maxWeight c)
               (sub64 (occupiedWeight c) (Weight v))
               (GoList.mkList cs (GoList.next (entries c)))
               (delete key (index c))).
Proof.
  intros Hlt Hcs Hnotin. apply Z.ltb_lt in Hlt. simpl. rewrite Hlt.
  unfold evictOne. rewrite (proj2 (Back_Some (entries c) e _)) by eauto.
  simpl. unfold GoList.Remove. rewrite Hcs, without_app, without_notin by done.
  unfold GoList.without. rewrite filter_cons_False by (simpl; tauto).
  by rewrite filter_nil, app_nil_r.
Qed.

Lemma LookUp_present key c e en :
  index c !! key = Some e →
  GoList.Value (entries c) e = Some en →
  LookUp key c =
    (Returns (Value en),
     mkCache (maxWeight c) (occupiedWeight c)
             (GoList.mkList ((e, en) :: GoList.without e (GoList.cells (entries c)))
                            (GoList.next (entries c)))
             (index c)).
Proof.
  intros Hidx Hval. unfold LookUp. rewrite Hidx, (MoveToFront_hit _ _ _ Hval).
  unfold GoList.Value. simpl. by rewrite decide_True.
Qed.

(** *** The operations on a cache that satisfies the invariant *)

Lemma evictOne_wf c cs e en :
  wf c → GoList.cells (entries c) = cs ++ [(e, en)] →
  evictOne c =
    (Returns (Value en),
     mkCache (maxWeight c)
             (sub64 (occupiedWeight c) (weight_of en))
             (GoList.mkList cs (GoList.next (entries c)))
             (delete (Key en) (index c))).
Proof.
  intros Hwf Hcs. unfold evictOne.
  rewrite (proj2 (Back_Some (entries c) e en)) by eauto.
  assert ((e, en) ∈ GoList.cells (entries c)) as Hlast.
  { rewrite Hcs. apply elem_of_app. right. left. }
  destruct (wf_nonnil c Hwf _ Hlast) as [v Hv]. simpl in Hv.
  unfold weight_of. rewrite Hv. simpl.
  by rewrite (Remove_Back _ cs e en (wf_nodup c Hwf) Hcs).
Qed.

Lemma occupied_empty c :
  wf c → GoList.cells (entries c) = [] → occupiedWeight c = 0.
Proof.
  intros Hwf Hnil. rewrite (wf_weight c Hwf). unfold totalWeight.
  by rewrite Hnil.
Qed.

Lemma occupied_singleton c e en :
  wf c → GoList.cells (entries c) = [(e, en)] → occupiedWeight c = weight_of en.
Proof.
  intros Hwf Hone. rewrite (wf_weight c Hwf). unfold totalWeight.
  rewrite Hone. simpl. rewrite Z.add_0_r. apply mod64_small.
  unfold weight_of. destruct (Value en) as [v|]; [apply Weight_uint64|done].
Qed.

(** The eviction loop of [Insert] returns; it removes a suffix of the
    recency list, reports the removed values from the back, and stops
    before the front entry when that entry alone fits. *)
Lemma evictLoop_wf fuel evs c :
  wf c → (length (GoList.cells (entries c)) < fuel)%nat →
  ∃ c' tl,
    evictLoop fuel evs c
      = (Returns (evs ++ map (λ ce, Value (snd ce)) (reverse tl)), c') ∧
    wf c' ∧
    occupiedWeight c' <= maxWeight c' ∧
    maxWeight c' = maxWeight c ∧
    GoList.cells (entries c) = GoList.cells (entries c') ++ tl ∧
    (∀ ce, head (GoList.cells (entries c)) = Some ce →
           weight_of (snd ce) <= maxWeight c →
           head (GoList.cells (entries c')) = Some ce).
Proof.
  revert evs c. induction fuel as [|fuel IH]; intros evs c Hwf Hlen; [lia|].
  simpl. destruct (maxWeight c <? occupiedWeight c) eqn:Hcmp.
  - apply Z.ltb_lt in Hcmp.
    destruct (GoList.Back (entries c)) as [[e en]|] eqn:Hback.
    + apply Back_Some in Hback as [cs Hcs].
      rewrite (evictOne_wf c cs e en Hwf Hcs).
      pose proof (wf_evict c cs e en Hwf Hcs) as Hwf1.
      destruct (IH (evs ++ [Value en]) _ Hwf1) as (c' & tl & Heq & Hwf' & Hle & Hmax & Hpre & Hhead).
      { simpl. rewrite Hcs, length_app in Hlen. simpl in Hlen. lia. }
      exists c', (tl ++ [(e, en)]). simpl in *.
      rewrite Heq, reverse_app. simpl. rewrite <- app_assoc. simpl.
      split_and!; try done.
      * rewrite Hcs, Hpre. by rewrite app_assoc.
      * intros ce Hce Hfit. apply Hhead; [|done].
        rewrite Hcs in Hce. destruct cs as [|ce' cs']; [|done].
        simpl in Hce. injection Hce as <-.
        rewrite (occupied_singleton c e en Hwf Hcs) in Hcmp. simpl in Hfit. lia.
    + apply Back_None in Hback.
      rewrite (occupied_empty c Hwf Hback) in Hcmp.
      pose proof (wf_max c Hwf) as [Hm _]. lia.
  - apply Z.ltb_ge in Hcmp. exists c, []. rewrite !app_nil_r.
    split_and!; done.
Qed.

Lemma Erase_absent key c :
  index c !! key = None → Erase key c = (Returns None, c).
Proof. unfold Erase. by intros ->. Qed.

Lemma Erase_present key c :
  wf c → is_Some (index c !! key) → Erase key c = (Panics nil_dereference, c).
Proof.
  intros Hwf [e Hidx]. unfold Erase. rewrite Hidx.
  destruct (wf_index_Value c key e Hwf Hidx) as [v ->]. done.
Qed.

(** [Erase] never changes the cache: it returns nil for a key that is
    absent, and for a key that is present it panics before its first
    assignment. *)
Lemma Erase_leaves_cache key c : snd (Erase key c) = c.
Proof.
  unfold Erase. destruct (index c !! key) as [e|]; [|done].
  by destruct (GoList.Value (entries c) e).
Qed.

Lemma LookUp_miss key c :
  index c !! key = None → LookUp key c = (Returns None, c).
Proof. unfold LookUp. by intros ->. Qed.

Lemma LookUp_hit key c e :
  wf c → index c !! key = Some e →
  ∃ v,
    (e, mkEntry key (Some v)) ∈ GoList.cells (entries c) ∧
    mapping c key = Some v ∧
    LookUp key c =
      (Returns (Some v),
       mkCache (maxWeight c) (occupiedWeight c)
               (GoList.mkList
                  ((e, mkEntry key (Some v))
                     :: GoList.without e (GoList.cells (entries c)))
                  (GoList.next (entries c)))
               (index c)).
Proof.
  intros Hwf Hidx. destruct (wf_index_Value c key e Hwf Hidx) as [v Hv].
  exists v. split_and!.
  - by apply lookup_cell_Some_elem.
  - unfold mapping. rewrite Hidx. simpl. rewrite Hv. done.
  - unfold LookUp. rewrite Hidx. rewrite (MoveToFront_hit _ _ _ Hv).
    unfold GoList.Value. simpl. rewrite decide_True by done. done.
Qed.

Lemma Insert_nil key c :
  Insert key None c = (Panics "nil values are not supported", c).
Proof. done. Qed.

(** [Insert] of a non-nil value returns.  [c1] is the cache when the entry
    has been written and moved to the front, before the eviction loop;
    [tl] is the suffix of the recency list the loop evicts. *)
Lemma Insert_wf key v c :
  wf c →
  ∃ c1 c' tl e,
    Insert key (Some v) c
      = (Returns (map (λ ce, Value (snd ce)) (reverse tl)), c') ∧
    wf c1 ∧ wf c' ∧
    occupiedWeight c' <= maxWeight c' ∧
    maxWeight c' = maxWeight c ∧
    (index c !! key = Some e ∨
     (index c !! key = None ∧ e = GoList.next (entries c))) ∧
    GoList.cells (entries c1)
      = (e, mkEntry key (Some v)) :: GoList.without e (GoList.cells (entries c)) ∧
    GoList.cells (entries c1) = GoList.cells (entries c') ++ tl ∧
    (Weight v <= maxWeight c →
     head (GoList.cells (entries c')) = Some (e, mkEntry key (Some v))).
Proof.
  intros Hwf. unfold Insert.
  destruct (index c !! key) as [e|] eqn:Hidx.
  - destruct (wf_index_Value c key e Hwf Hidx) as [v0 Hv0]. rewrite Hv0. cbn -[evictLoop].
    rewrite (MoveToFront_SetValue _ _ _ _ Hv0).
    set (c1 := mkCache _ _ _ _).
    assert (wf c1) as Hwf1.
    { apply (wf_promote c key e); [done|done|done|by eexists|].
      rewrite (wf_weight c Hwf), sub64_mod.
      unfold add64. rewrite Z.add_mod_idemp_l by done. f_equal.
      unfold totalWeight.
      rewrite (sum_weights_without _ e (mkEntry key (Some v0)) (wf_nodup c Hwf)).
      - unfold weight_of. simpl. lia.
      - by apply lookup_cell_Some_elem. }
    destruct (evictLoop_wf (S (GoList.Len (entries c1))) [] c1 Hwf1)
      as (c' & tl & Heq & Hwf' & Hle & Hmax & Hpre & Hhead).
    { unfold GoList.Len. lia. }
    exists c1, c', tl, e. split; [exact Heq|]. simpl in *.
    split_and!; try done; [by left|].
    intros Hfit. by apply Hhead.
  - cbn -[evictLoop]. set (c1 := mkCache _ _ _ _).
    pose proof (wf_push_front c key v Hwf Hidx) as Hwf1. fold c1 in Hwf1.
    destruct (evictLoop_wf (S (GoList.Len (entries c1))) [] c1 Hwf1)
      as (c' & tl & Heq & Hwf' & Hle & Hmax & Hpre & Hhead).
    { unfold GoList.Len. lia. }
    exists c1, c', tl, (GoList.next (entries c)). split; [exact Heq|]. simpl in *.
    split_and!; try done; [by right| |].
    + f_equal. symmetry. apply without_notin.
      intros Hin. apply list_elem_of_fmap in Hin as (ce & Heq' & Hin).
      apply (wf_next c Hwf) in Hin. lia.
    + intros Hfit. by apply Hhead.
Qed.

(** Every operation keeps the invariant and the bound, whatever its
    arguments and however it ends. *)
Lemma step_wf c (o : op V) :
  wf c → occupiedWeight c <= maxWeight c →
  wf (step c o) ∧ occupiedWeight (step c o) <= maxWeight (step c o) ∧
  maxWeight (step c o) = maxWeight c.
Proof.
  intros Hwf Hle. destruct o as [key [v|]|key|key]; unfold step.
  - destruct (Insert_wf key v c Hwf)
      as (c1 & c' & tl & e & -> & _ & Hwf' & Hle' & Hmax & _). done.
  - done.
  - destruct (index c !! key) as [e|] eqn:Hidx.
    + by rewrite Erase_present.
    + by rewrite Erase_absent.
  - destruct (index c !! key) as [e|] eqn:Hidx.
    + destruct (LookUp_hit key c e Hwf Hidx) as (v & Hin & Hmap & ->). simpl.
      split_and!; try done.
      apply (wf_promote c key e); [done|done|done|by eexists|].
      rewrite (wf_weight c Hwf). f_equal. unfold totalWeight.
      apply sum_weights_without; [apply Hwf|done].
    + by rewrite LookUp_miss.
Qed.

End CacheFacts.

(** ** The cache interface *)

Section CacheInterface.
Import lru.
Context {V : Type} `{Weighted V}.
Implicit Types (c : Cache V) (ops : list (op V)).

Lemma sum_weights_without_le (cs : list (GoList.Element * entry V)) e :
  sum_weights (GoList.without e cs) <= sum_weights cs.
Proof.
  induction cs as [|[e' en'] cs IH]; simpl; [done|].
  unfold GoList.without in *. pose proof (weight_of_nonneg en').
  destruct (decide (e' = e)) as [->|Hne].
  - rewrite filter_cons_False by (simpl; tauto). lia.
  - rewrite filter_cons_True by (simpl; done). simpl. lia.
Qed.

(** Without wrap-around the occupied weight is the sum itself. *)
Lemma step_exact c (o : op V) :
  wf c → occupiedWeight c <= maxWeight c →
  occupiedWeight c = totalWeight c →
  (∀ key v, o = OpInsert key (Some v) → maxWeight c + Weight v < uint64_modulus) →
  occupiedWeight (step c o) = totalWeight (step c o).
Proof.
  intros Hwf Hle Hex Hfit.
  destruct (step_wf c o Hwf Hle) as (Hwf' & _ & _).
  destruct o as [key [v|]|key|key]; unfold step in *.
  - destruct (Insert_wf key v c Hwf)
      as (c1 & c' & tl & e & Heq & _ & _ & _ & _ & _ & Hc1 & Hpre & _).
    rewrite Heq in *. simpl in *.
    rewrite (wf_weight c' Hwf'). apply mod64_small.
    split; [apply sum_weights_nonneg|].
    assert (totalWeight c' <= totalWeight c + Weight v) as Hsum.
    { unfold totalWeight.
      assert (sum_weights (GoList.cells (entries c1))
              = sum_weights (GoList.cells (entries c')) + sum_weights tl) as Hs
        by (by rewrite Hpre, sum_weights_app).
      rewrite Hc1 in Hs. simpl in Hs. unfold weight_of at 1 in Hs. simpl in Hs.
      pose proof (sum_weights_nonneg tl).
      pose proof (sum_weights_without_le (GoList.cells (entries c)) e). lia. }
    specialize (Hfit key v eq_refl). lia.
  - done.
  - destruct (index c !! key) as [e|] eqn:Hidx.
    + by rewrite Erase_present.
    + by rewrite Erase_absent.
  - destruct (index c !! key) as [e|] eqn:Hidx.
    + destruct (LookUp_hit key c e Hwf Hidx) as (v & Hin & Hmap & ->). simpl.
      rewrite Hex. unfold totalWeight. simpl.
      by rewrite (sum_weights_without _ e _ (wf_nodup c Hwf) Hin).
    + by rewrite LookUp_miss.
Qed.

Lemma run_cons o ops c : run (o :: ops) c = run ops (step c o).
Proof. done. Qed.

Lemma run_app ops1 ops2 c : run (ops1 ++ ops2) c = run ops2 (run ops1 c).
Proof. unfold run. apply foldl_app. Qed.

Lemma run_wf ops c :
  wf c → occupiedWeight c <= maxWeight c →
  wf (run ops c) ∧ occupiedWeight (run ops c) <= maxWeight (run ops c) ∧
  maxWeight (run ops c) = maxWeight c.
Proof.
  revert c. induction ops as [|o ops IH]; intros c Hwf Hle; [done|].
  rewrite run_cons. destruct (step_wf c o Hwf Hle) as (Hwf' & Hle' & Hmax).
  destruct (IH _ Hwf' Hle') as (? & ? & ?). split_and!; [done|done|congruence].
Qed.

Lemma reachable_wf c : reachable c → wf c.
Proof.
  intros (m & ops & Hm & ->). apply run_wf; [by apply wf_empty|].
  simpl. apply Hm.
Qed.

Lemma run_exact ops c :
  wf c → occupiedWeight c <= maxWeight c →
  occupiedWeight c = totalWeight c →
  (∀ v, v ∈ inserted ops → maxWeight c + Weight v < uint64_modulus) →
  occupiedWeight (run ops c) = totalWeight (run ops c).
Proof.
  revert c. induction ops as [|o ops IH]; intros c Hwf Hle Hex Hfit; [done|].
  rewrite run_cons. destruct (step_wf c o Hwf Hle) as (Hwf' & Hle' & Hmax).
  apply IH; [done|done| |].
  - apply step_exact; [done|done|done|]. intros key v ->. apply Hfit.
    unfold inserted. simpl. left.
  - intros v Hv. rewrite Hmax. apply Hfit. unfold inserted in *.
    destruct o as [key [v'|]|key|key]; simpl; [by right|done|done|done].
Qed.

End CacheInterface.

(** ** Erase *)

(** C1.  [Erase] of a key that is present.  The cache built by
    [New(10)] and [Insert("a", v)] with [v] of weight 4 holds [v] under
    ["a"] with occupied weight 4; [Erase("a")] then panics on the nil
    [value] whose weight it asks for, and the cache is left as it was: the
    entry is not removed, the occupied weight is not decremented and no
    value is returned. *)
Theorem Erase_present_key_panics :
  let v := mkBlob "payload" 4 in
  let c0 := lru.mkCache 10 0 GoList.empty ∅ in
  let c1 := snd (lru.Insert "a" (Some v) c0) in
  lru.New 10 = Returns c0 ∧
  lru.mapping c1 "a" = Some v ∧
  lru.occupiedWeight c1 = 4 ∧
  lru.Erase "a" c1 = (Panics nil_dereference, c1).
Proof. vm_compute. done. Qed.

(** ** The weight invariant *)

(** C2 (amended).  For every sequence of Insert, Erase and LookUp
    operations on a cache constructed with a uint64 [maxWeight > 0], after
    the sequence the occupied weight equals the sum of [Weight()] over
    the entries present modulo 2^64 and is at most [maxWeight]; and when
    [maxWeight] plus the weight of each inserted value stays below 2^64,
    the occupied weight equals the sum itself. *)
Theorem weight_invariant {V : Type} `{lru.Weighted V} (m : Z) (ops : list (lru.op V)) :
  0 < m → is_uint64 m →
  ∃ c0, lru.New m = Returns c0 ∧
    let c := lru.run ops c0 in
    lru.occupiedWeight c = lru.totalWeight c mod uint64_modulus ∧
    lru.occupiedWeight c <= lru.maxWeight c ∧
    lru.maxWeight c = m ∧
    ((∀ v, v ∈ lru.inserted ops → m + lru.Weight v < uint64_modulus) →
     lru.occupiedWeight c = lru.totalWeight c).
Proof.
  intros Hpos Hm. eexists. split; [reflexivity|]. simpl.
  set (c0 := lru.mkCache m 0 GoList.empty ∅).
  assert (lru.wf c0) as Hwf0 by by apply wf_empty.
  assert (lru.occupiedWeight c0 <= lru.maxWeight c0) as Hle0 by (simpl; lia).
  destruct (run_wf ops c0 Hwf0 Hle0) as (Hwf & Hle & Hmax).
  split_and!; [apply Hwf|done|done|].
  intros Hfit. by apply run_exact.
Qed.

Lemma weight_invariant_witness :
  let ops := [lru.OpInsert "A" (Some (mkBlob "a" 4));
              lru.OpInsert "B" (Some (mkBlob "b" 4));
              lru.OpErase "A";
              lru.OpInsert "C" (Some (mkBlob "c" 4))] in
  0 < 10 ∧ is_uint64 10 ∧
  ∃ c0, lru.New 10 = Returns c0 ∧
    let c := lru.run ops c0 in
    lru.occupiedWeight c = lru.totalWeight c mod uint64_modulus ∧
    lru.occupiedWeight c <= lru.maxWeight c ∧
    lru.maxWeight c = 10 ∧
    ((∀ v, v ∈ lru.inserted ops → 10 + lru.Weight v < uint64_modulus) →
     lru.occupiedWeight c = lru.totalWeight c).
Proof.
  intros ops.
  assert (0 < 10) as Hpos by reflexivity.
  assert (is_uint64 10) as Hm by (split; [discriminate | reflexivity]).
  exact (conj Hpos (conj Hm (weight_invariant 10 ops Hpos Hm))).
Defined.

(** C2 as stated fails: with [maxWeight = 2^64 - 1], inserting a value of
    weight [2^64 - 1] and then a value of weight 1 under another key makes
    the occupied weight wrap to 0, nothing is evicted, and the two entries
    present weigh 2^64 together. *)
Lemma weight_sum_wraps :
  ¬ (∀ (m : Z) (ops : list (lru.op blob)) c0,
       0 < m → is_uint64 m → lru.New m = Returns c0 →
       lru.occupiedWeight (lru.run ops c0) = lru.totalWeight (lru.run ops c0) ∧
       lru.occupiedWeight (lru.run ops c0) <= lru.maxWeight (lru.run ops c0)).
Proof.
  intros Hclaim.
  assert (0 < uint64_max) as Hpos by reflexivity.
  assert (is_uint64 uint64_max) as Hm by (split; [discriminate | reflexivity]).
  specialize (Hclaim uint64_max
    [lru.OpInsert "a" (Some (mkBlob "a" 18446744073709551615));
     lru.OpInsert "b" (Some (mkBlob "b" 1))]
    _ Hpos Hm eq_refl).
  destruct Hclaim as [Hsum _]. vm_compute in Hsum. discriminate.
Qed.

(** ** Construction *)

(** C3 (amended).  [New] performs no check: for every [maxWeight], zero
    included, it returns a cache with that [maxWeight], no entries and
    occupied weight 0.  The violation of [maxWeight > 0] is reported only
    by [CheckInvariants], which panics with "Invalid maxWeight" on that
    cache when [maxWeight] is not positive and returns on it otherwise. *)
Theorem New_performs_no_check {V : Type} `{lru.Weighted V} (m : Z) :
  let c : lru.Cache V := lru.mkCache m 0 GoList.empty ∅ in
  lru.New m = Returns c ∧
  lru.CheckInvariants c =
    if 0 <? m then Returns ()
    else Panics ("Invalid maxWeight: " +:+ pretty m).
Proof.
  simpl. split; [done|]. unfold lru.CheckInvariants. simpl.
  destruct (0 <? m) eqn:Hm; simpl; [|done].
  apply Z.ltb_lt in Hm.
  destruct (0 <=? m) eqn:Hle; [done|]. apply Z.leb_gt in Hle. lia.
Qed.

(** On the cache [New(0)] returns, [CheckInvariants] panics with this
    message; on the cache of the eviction scenario it returns. *)
Example CheckInvariants_examples :
  lru.CheckInvariants (lru.mkCache (V:=blob) 0 0 GoList.empty ∅)
    = Panics "Invalid maxWeight: 0" ∧
  lru.CheckInvariants
    (lru.run [lru.OpInsert "A" (Some (mkBlob "a" 4));
              lru.OpInsert "B" (Some (mkBlob "b" 4));
              lru.OpInsert "C" (Some (mkBlob "c" 4))]
             (lru.mkCache 10 0 GoList.empty ∅))
    = Returns ().
Proof. vm_compute. done. Qed.

(** C3 as stated fails: [New(0)] does not panic; it returns a cache on
    which [Insert] and [LookUp] return (every inserted value of positive
    weight is evicted at once). *)
Lemma New_zero_returns :
  ¬ panics (lru.New (V:=blob) 0) ∧
  ∃ c, lru.New 0 = Returns c ∧
    fst (lru.Insert "a" (Some (mkBlob "a" 1)) c) = Returns [Some (mkBlob "a" 1)] ∧
    fst (lru.LookUp "a" c) = Returns None.
Proof.
  split; [intros []|]. eexists. split; [reflexivity|]. vm_compute. done.
Qed.

(** ** Eviction order *)

Section EvictionOrder.
Import lru.
Context {V : Type} `{Weighted V}.

Ltac cache_fields :=
  cbn [maxWeight occupiedWeight entries index
       GoList.cells GoList.next GoList.empty GoList.Len length fst snd app].

Ltac not_in_cells :=
  cbn; repeat (apply not_elem_of_cons; split; [done|]); apply not_elem_of_nil.

(** C4.  With [maxWeight = 10] and values of weight 4 inserted under
    three distinct keys A, B and C in that order, the insertion of C
    returns exactly the value of A as evicted and leaves C and B; with
    [LookUp(A)] between the insertions of B and C, the insertion of C
    returns exactly the value of B and leaves C and A. *)
Theorem lru_order (kA kB kC : string) (vA vB vC : V) :
  Weight vA = 4 → Weight vB = 4 → Weight vC = 4 →
  kA ≠ kB → kA ≠ kC → kB ≠ kC →
  let c0 := mkCache 10 0 GoList.empty ∅ in
  let c2 := run [OpInsert kA (Some vA); OpInsert kB (Some vB)] c0 in
  let plain := Insert kC (Some vC) c2 in
  let looked := LookUp kA c2 in
  let promoted := Insert kC (Some vC) (snd looked) in
  New 10 = Returns c0 ∧
  (fst plain = Returns [Some vA] ∧
   recency (snd plain) = [mkEntry kC (Some vC); mkEntry kB (Some vB)] ∧
   mapping (snd plain) kA = None ∧
   mapping (snd plain) kB = Some vB ∧
   mapping (snd plain) kC = Some vC) ∧
  (fst looked = Returns (Some vA) ∧
   fst promoted = Returns [Some vB] ∧
   recency (snd promoted) = [mkEntry kC (Some vC); mkEntry kA (Some vA)] ∧
   mapping (snd promoted) kA = Some vA ∧
   mapping (snd promoted) kB = None ∧
   mapping (snd promoted) kC = Some vC).
Proof.
  intros HA HB HC Hab Hac Hbc c0 c2.
  set (eA := mkEntry kA (Some vA)). set (eB := mkEntry kB (Some vB)).
  set (eC := mkEntry kC (Some vC)).
  pose (cA := mkCache 10 4 (GoList.mkList [(0%nat, eA)] 1) (<[kA := 0%nat]> ∅)).
  pose (cB := mkCache 10 8 (GoList.mkList [(1%nat, eB); (0%nat, eA)] 2)
                      (<[kB := 1%nat]> (<[kA := 0%nat]> ∅))).
  assert (Insert kA (Some vA) c0 = (Returns [], cA)) as HcA.
  { rewrite Insert_absent by apply lookup_empty. cache_fields.
    rewrite HA. by apply evictLoop_done. }
  assert (Insert kB (Some vB) cA = (Returns [], cB)) as HcB.
  { unfold cA. rewrite Insert_absent by (cache_fields; by rewrite lookup_insert_ne).
    cache_fields. rewrite HB. by apply evictLoop_done. }
  assert (c2 = cB) as ->.
  { unfold c2, run. cbn [foldl step]. rewrite HcA. cbn [snd]. by rewrite HcB. }
  intros plain looked promoted. clear HcA HcB.
  split; [done|]. split.
  - assert (plain =
              (Returns [Some vA],
               mkCache 10 8 (GoList.mkList [(2%nat, eC); (1%nat, eB)] 3)
                 (delete kA (<[kC := 2%nat]>
                               (<[kB := 1%nat]> (<[kA := 0%nat]> ∅)))))) as ->.
    { unfold plain, cB.
      rewrite Insert_absent by (cache_fields; by rewrite !lookup_insert_ne).
      cache_fields. rewrite HC.
      rewrite (evictLoop_evict _ _ _ [(2%nat, eC); (1%nat, eB)] 0%nat kA vA);
        [|done|done|not_in_cells].
      cache_fields. rewrite HA. by apply evictLoop_done. }
    cache_fields. unfold mapping, GoList.Value. cache_fields.
    rewrite lookup_delete_eq, !lookup_delete_ne by done.
    rewrite lookup_insert_eq, lookup_insert_ne, lookup_insert_eq by done.
    split_and!; done.
  - assert (looked =
              (Returns (Some vA),
               mkCache 10 8 (GoList.mkList [(0%nat, eA); (1%nat, eB)] 2)
                 (<[kB := 1%nat]> (<[kA := 0%nat]> ∅)))) as ->.
    { unfold looked, cB. rewrite (LookUp_present kA _ 0%nat eA); [done| |done].
      cache_fields. by rewrite lookup_insert_ne, lookup_insert_eq. }
    assert (promoted =
              (Returns [Some vB],
               mkCache 10 8 (GoList.mkList [(2%nat, eC); (0%nat, eA)] 3)
                 (delete kB (<[kC := 2%nat]>
                               (<[kB := 1%nat]> (<[kA := 0%nat]> ∅)))))) as ->.
    { unfold promoted. cache_fields.
      rewrite Insert_absent by (cache_fields; by rewrite !lookup_insert_ne).
      cache_fields. rewrite HC.
      rewrite (evictLoop_evict _ _ _ [(2%nat, eC); (0%nat, eA)] 1%nat kB vB);
        [|done|done|not_in_cells].
      cache_fields. rewrite HB. by apply evictLoop_done. }
    cache_fields. unfold mapping, GoList.Value. cache_fields.
    rewrite lookup_delete_eq, !lookup_delete_ne by done.
    rewrite lookup_insert_eq, !lookup_insert_ne, lookup_insert_eq by done.
    split_and!; done.
Qed.

End EvictionOrder.

Lemma lru_order_witness :
  let vA := mkBlob "first" 4 in
  let vB := mkBlob "second" 4 in
  let vC := mkBlob "third" 4 in
  let c0 := lru.mkCache 10 0 GoList.empty ∅ in
  let c2 := lru.run [lru.OpInsert "A" (Some vA); lru.OpInsert "B" (Some vB)] c0 in
  let plain := lru.Insert "C" (Some vC) c2 in
  let looked := lru.LookUp "A" c2 in
  let promoted := lru.Insert "C" (Some vC) (snd looked) in
  (lru.Weight vA = 4 ∧ lru.Weight vB = 4 ∧ lru.Weight vC = 4) ∧
  ("A" ≠ "B" ∧ "A" ≠ "C" ∧ "B" ≠ "C") ∧
  lru.New 10 = Returns c0 ∧
  (fst plain = Returns [Some vA] ∧
   lru.recency (snd plain) = [lru.mkEntry "C" (Some vC); lru.mkEntry "B" (Some vB)] ∧
   lru.mapping (snd plain) "A" = None ∧
   lru.mapping (snd plain) "B" = Some vB ∧
   lru.mapping (snd plain) "C" = Some vC) ∧
  (fst looked = Returns (Some vA) ∧
   fst promoted = Returns [Some vB] ∧
   lru.recency (snd promoted) = [lru.mkEntry "C" (Some vC); lru.mkEntry "A" (Some vA)] ∧
   lru.mapping (snd promoted) "A" = Some vA ∧
   lru.mapping (snd promoted) "B" = None ∧
   lru.mapping (snd promoted) "C" = Some vC).
Proof.
  intros vA vB vC c0 c2 plain looked promoted.
  assert (lru.Weight vA = 4) as HA by reflexivity.
  assert (lru.Weight vB = 4) as HB by reflexivity.
  assert (lru.Weight vC = 4) as HC by reflexivity.
  assert ("A" ≠ "B") as Hab by discriminate.
  assert ("A" ≠ "C") as Hac by discriminate.
  assert ("B" ≠ "C") as Hbc by discriminate.
  exact (conj (conj HA (conj HB HC))
          (conj (conj Hab (conj Hac Hbc))
             (lru_order "A" "B" "C" vA vB vC HA HB HC Hab Hac Hbc))).
Defined.

(** ** Gob encoding of the cache *)

Section GobFacts.
Import lru.
Context {V : Type} `{Weighted V}.
Context {gob_uint64 : Gob Z} {gob_entries : Gob (list (entry V))}.
Implicit Types (c : Cache V) (en : entry V) (es : list (entry V)).

Lemma wf_indexed c : wf c → indexed c.
Proof. intros Hwf. split_and!; apply Hwf. Qed.

Lemma indexed_cell_eq c e1 e2 en1 en2 :
  indexed c →
  (e1, en1) ∈ GoList.cells (entries c) →
  (e2, en2) ∈ GoList.cells (entries c) →
  Key en1 = Key en2 → (e1, en1) = (e2, en2).
Proof.
  intros (Hnd & _ & Hidx) H1 H2 Hkey.
  assert (index c !! Key en1 = Some e1) as Hi1.
  { apply Hidx. exists (Value en1). by rewrite entry_eta. }
  assert (index c !! Key en2 = Some e2) as Hi2.
  { apply Hidx. exists (Value en2). by rewrite entry_eta. }
  rewrite Hkey, Hi2 in Hi1. injection Hi1 as <-.
  f_equal. by eapply cell_unique.
Qed.

Lemma indexed_keys_NoDup c : indexed c → NoDup (map Key (recency c)).
Proof.
  intros Hix. unfold recency, GoList.values. rewrite map_map.
  apply (NoDup_fmap_2_strong (λ ce, Key (snd ce))).
  - intros [e1 en1] [e2 en2] H1 H2 Hkey. by eapply indexed_cell_eq.
  - destruct Hix as (Hnd & _). by eapply NoDup_fmap_1.
Qed.

Lemma valueIn_None k es : k ∉ map Key es → valueIn k es = None.
Proof.
  induction es as [|en es IH]; simpl; [done|].
  rewrite not_elem_of_cons. intros [Hne Hnotin].
  rewrite decide_False by done. by apply IH.
Qed.

Lemma valueIn_elem en es :
  NoDup (map Key es) → en ∈ es → valueIn (Key en) es = Value en.
Proof.
  induction es as [|en' es IH]; simpl; intros Hnd Hin.
  - by apply elem_of_nil in Hin.
  - apply NoDup_cons in Hnd as [Hnotin Hnd].
    apply elem_of_cons in Hin as [->|Hin].
    + by rewrite decide_True.
    + rewrite decide_False; [by apply IH|].
      intros Heq. apply Hnotin. rewrite Heq. by apply list_elem_of_fmap_2.
Qed.

(** On a cache whose index and list agree, the value of a key is the
    value of its entry in the recency list. *)
Lemma mapping_valueIn c k : indexed c → mapping c k = valueIn k (recency c).
Proof.
  intros Hix. pose proof (indexed_keys_NoDup c Hix) as Hkeys.
  destruct Hix as (Hnd & _ & Hidx). unfold mapping.
  destruct (index c !! k) as [e|] eqn:Hk; simpl.
  - apply Hidx in Hk as [v Hin].
    unfold GoList.Value. rewrite (lookup_cell_elem _ _ _ Hnd Hin). simpl.
    symmetry. apply (valueIn_elem (mkEntry k v)); [done|].
    unfold recency, GoList.values.
    change (mkEntry k v) with (snd (e, mkEntry k v)). by apply list_elem_of_fmap_2.
  - symmetry. apply valueIn_None. intros Hin.
    apply list_elem_of_fmap in Hin as (en & -> & Hin).
    unfold recency, GoList.values in Hin.
    apply list_elem_of_fmap in Hin as ([e en'] & -> & Hin). simpl in Hk.
    assert (index c !! Key en' = Some e) as Hsome.
    { apply Hidx. exists (Value en'). by rewrite entry_eta. }
    congruence.
Qed.

Lemma store_indexed c en :
  indexed c → Key en ∉ map Key (recency c) →
  indexed (store c en) ∧
  recency (store c en) = recency c ++ [en] ∧
  maxWeight (store c en) = maxWeight c ∧
  occupiedWeight (store c en) = occupiedWeight c.
Proof.
  intros (Hnd & Hnext & Hidx) Hfresh. unfold store. simpl.
  assert (GoList.next (entries c) ∉ map fst (GoList.cells (entries c))) as Hnew.
  { intros Hin. apply list_elem_of_fmap in Hin as (ce & Heq & Hin).
    apply Hnext in Hin. lia. }
  split_and!; try done.
  - split_and!; simpl.
    + rewrite map_app. simpl. apply NoDup_app. split_and!; [done| |apply NoDup_singleton].
      intros x Hx Hx'. apply list_elem_of_singleton in Hx'. by subst x.
    + intros ce Hin. apply elem_of_app in Hin as [Hin|Hin].
      * apply Hnext in Hin. lia.
      * apply list_elem_of_singleton in Hin. subst ce. simpl. lia.
    + intros k e. rewrite lookup_insert. case_decide as Hk.
      * subst k. split.
        -- intros [= <-]. exists (Value en). rewrite entry_eta.
           apply elem_of_app. right. left.
        -- intros [v Hin]. apply elem_of_app in Hin as [Hin|Hin].
           ++ exfalso. apply Hfresh. unfold recency, GoList.values.
              rewrite map_map.
              change (Key en) with ((λ ce : nat * entry V, Key (snd ce)) (e, mkEntry (Key en) v)).
              by apply list_elem_of_fmap_2.
           ++ apply list_elem_of_singleton in Hin. by injection Hin as ->.
      * rewrite Hidx. split; intros [v Hin]; exists v.
        -- apply elem_of_app. by left.
        -- apply elem_of_app in Hin as [Hin|Hin]; [done|].
           apply list_elem_of_singleton in Hin. injection Hin as -> <-. done.
  - unfold recency, GoList.values. simpl. by rewrite map_app.
Qed.

Lemma foldl_store es c :
  indexed c → NoDup (map Key (recency c ++ es)) →
  indexed (foldl store c es) ∧
  recency (foldl store c es) = recency c ++ es ∧
  maxWeight (foldl store c es) = maxWeight c ∧
  occupiedWeight (foldl store c es) = occupiedWeight c.
Proof.
  revert c. induction es as [|en es IH]; intros c Hix Hnd; simpl.
  - by rewrite app_nil_r.
  - destruct (store_indexed c en Hix) as (Hix' & Hrec & Hmax & Hocc).
    { rewrite map_app in Hnd. simpl in Hnd.
      apply NoDup_app in Hnd as (_ & Hdisj & _).
      intros Hin. apply (Hdisj _ Hin). left. }
    destruct (IH (store c en) Hix') as (Hix'' & Hrec' & Hmax' & Hocc').
    { rewrite Hrec, <- app_assoc. done. }
    split_and!; [done| |congruence|congruence].
    rewrite Hrec', Hrec, <- app_assoc. done.
Qed.

Lemma indexed_empty (m : Z) : indexed (mkCache (V:=V) m 0 GoList.empty ∅).
Proof.
  split_and!; simpl.
  - constructor.
  - intros ce Hin. by apply elem_of_nil in Hin.
  - intros k e. rewrite lookup_empty. split; [done|].
    intros [v Hin]. by apply elem_of_nil in Hin.
Qed.

(** Decoding what a cache with a consistent index encodes to. *)
Lemma GobDecode_GobEncode c b receiver :
  gob_roundtrip Z → gob_roundtrip (list (entry V)) →
  indexed c →
  GobEncode c = (b, None) →
  ∃ c',
    GobDecode b receiver = (Returns None, c') ∧
    maxWeight c' = maxWeight c ∧
    occupiedWeight c' = occupiedWeight c ∧
    recency c' = recency c ∧
    ∀ key, mapping c' key = mapping c key.
Proof.
  intros Hrt64 Hrtes Hix. unfold GobEncode.
  destruct (gob_encode (maxWeight c)) as [err|b1] eqn:H1; [done|].
  destruct (gob_encode (occupiedWeight c)) as [err|b2] eqn:H2; [done|].
  destruct (gob_encode (GoList.values (entries c))) as [err|b3] eqn:H3; [done|].
  intros [= <-]. unfold GobDecode.
  rewrite (Hrt64 _ _ _ H1), (Hrt64 _ _ _ H2). simpl.
  rewrite <- (app_nil_r b3), (Hrtes _ _ _ H3).
  destruct (foldl_store (GoList.values (entries c))
              (mkCache (maxWeight c) 0 GoList.empty ∅) (indexed_empty _))
    as (Hix' & Hrec & Hmax & Hocc).
  { simpl. by apply indexed_keys_NoDup. }
  eexists. split; [reflexivity|]. simpl in *.
  split_and!; try done.
  intros key. rewrite !mapping_valueIn; [|done|done].
  - unfold recency in *. simpl. by rewrite Hrec.
Qed.

End GobFacts.

(** *** The byte encoding of the scenarios round-trips *)

Lemma dec_enc_nat n rest : wire.dec_nat (wire.enc_nat n ++ rest) = Some (n, rest).
Proof. induction n as [|n IH]; simpl; [done|]. by rewrite IH. Qed.

Lemma dec_enc_string s rest :
  wire.dec_string (wire.enc_string s ++ rest) = Some (s, rest).
Proof.
  induction s as [|a s IH]; simpl; [done|].
  by rewrite IH, Ascii.ascii_of_byte_of_ascii.
Qed.

Lemma dec_enc_blob v rest : wire.dec_blob (wire.enc_blob v ++ rest) = Some (v, rest).
Proof.
  unfold wire.dec_blob, wire.enc_blob. rewrite <- app_assoc.
  rewrite dec_enc_string, dec_enc_nat, N2Nat.id. by destruct v.
Qed.

Lemma dec_enc_entry en rest :
  wire.dec_entry (wire.enc_entry en ++ rest) = Some (en, rest).
Proof.
  unfold wire.dec_entry, wire.enc_entry. rewrite <- app_assoc.
  rewrite dec_enc_string. destruct en as [k [v|]]; simpl; [|done].
  by rewrite dec_enc_blob.
Qed.

Lemma dec_enc_entries es rest :
  wire.dec_entries (length es) (flat_map wire.enc_entry es ++ rest)
  = Some (es, rest).
Proof.
  induction es as [|en es IH]; simpl; [done|].
  by rewrite <- app_assoc, dec_enc_entry, IH.
Qed.

Lemma uint64_Gob_roundtrip : gob_roundtrip Z.
Proof.
  intros x b rest. simpl. destruct (0 <=? x) eqn:Hx; [|done].
  intros [= <-]. rewrite dec_enc_nat. apply Z.leb_le in Hx.
  by rewrite Z2Nat.id.
Qed.

Lemma entries_Gob_roundtrip : gob_roundtrip (list (lru.entry blob)).
Proof.
  intros es b rest. simpl. intros [= <-].
  by rewrite <- app_assoc, dec_enc_nat, dec_enc_entries.
Qed.

(** *** Round trip *)

(** C5.  For every cache constructed by [New] and populated by any
    sequence of operations, when gob transmits uint64 numbers and entry
    slices faithfully, decoding the bytes [GobEncode] produces (into any
    receiver) succeeds and yields a cache with the same [maxWeight], the
    same [occupiedWeight], the same entries in the same recency order and
    the same value for every key. *)
Theorem gob_round_trip {V : Type} `{lru.Weighted V}
    {gob_uint64 : Gob Z} {gob_entries : Gob (list (lru.entry V))}
    (c : lru.Cache V) (b : list Byte.byte) (receiver : lru.Cache V) :
  gob_roundtrip Z → gob_roundtrip (list (lru.entry V)) →
  lru.reachable c →
  lru.GobEncode c = (b, None) →
  ∃ c',
    lru.GobDecode b receiver = (Returns None, c') ∧
    lru.maxWeight c' = lru.maxWeight c ∧
    lru.occupiedWeight c' = lru.occupiedWeight c ∧
    lru.recency c' = lru.recency c ∧
    ∀ key, lru.mapping c' key = lru.mapping c key.
Proof.
  intros Hrt64 Hrtes Hreach Henc.
  apply GobDecode_GobEncode; [done|done| |done].
  by apply wf_indexed, reachable_wf.
Qed.

Lemma gob_round_trip_witness :
  let ops := [lru.OpInsert "A" (Some (mkBlob "a" 4));
              lru.OpInsert "B" (Some (mkBlob "b" 4));
              lru.OpLookUp "A";
              lru.OpInsert "C" (Some (mkBlob "c" 4))] in
  let c := lru.run ops (lru.mkCache 10 0 GoList.empty ∅) in
  let b := fst (lru.GobEncode c) in
  gob_roundtrip Z ∧ gob_roundtrip (list (lru.entry blob)) ∧
  lru.reachable c ∧
  lru.GobEncode c = (b, None) ∧
  ∃ c',
    lru.GobDecode b (lru.mkCache 0 0 GoList.empty ∅) = (Returns None, c') ∧
    lru.maxWeight c' = lru.maxWeight c ∧
    lru.occupiedWeight c' = lru.occupiedWeight c ∧
    lru.recency c' = lru.recency c ∧
    ∀ key, lru.mapping c' key = lru.mapping c key.
Proof.
  intros ops c b.
  assert (is_uint64 10) as Hm by (split; [discriminate | reflexivity]).
  assert (lru.reachable c) as Hreach by (exists 10, ops; split; [exact Hm | reflexivity]).
  assert (lru.GobEncode c = (b, None)) as Henc by (vm_compute; reflexivity).
  exact (conj uint64_Gob_roundtrip
          (conj entries_Gob_roundtrip
            (conj Hreach
              (conj Henc
                (gob_round_trip c b (lru.mkCache 0 0 GoList.empty ∅)
                   uint64_Gob_roundtrip entries_Gob_roundtrip Hreach Henc))))).
Defined.

(** ** The download job *)

Section JobFacts.
Import downloader.
Implicit Types (st : State) (sub : jobSubscriber) (subs kept rest : list jobSubscriber)
  (cs : channel.Chans JobStatus) (status : JobStatus).

Lemma filter_all {A} (P : A → Prop) `{∀ x, Decision (P x)} (l : list A) :
  (∀ x, x ∈ l → P x) → filter P l = l.
Proof.
  induction l as [|x l IH]; intros Hall; [done|].
  rewrite filter_cons_True by (apply Hall; left).
  f_equal. apply IH. intros y Hy. apply Hall. by right.
Qed.

Lemma filter_none {A} (P : A → Prop) `{∀ x, Decision (P x)} (l : list A) :
  (∀ x, x ∈ l → ¬ P x) → filter P l = [].
Proof.
  induction l as [|x l IH]; intros Hall; [done|].
  rewrite filter_cons_False by (apply Hall; left).
  apply IH. intros y Hy. apply Hall. by right.
Qed.

(** What a send followed by a close does to the channel of a waiting
    subscriber. *)
Lemma send_close_waiting cs status sub :
  waiting cs sub →
  ∃ cs1 cs2,
    channel.send (notificationC sub) status cs = (Returns (), cs1) ∧
    channel.close (notificationC sub) cs1 = (Returns (), cs2) ∧
    channel.chan_of cs2
      = <[notificationC sub := channel.mkChan 1 [status] true]> (channel.chan_of cs) ∧
    channel.chan_log cs2
      = channel.chan_log cs ++ [channel.Sent (notificationC sub) status;
                                channel.Closed (notificationC sub)].
Proof.
  intros Hw. unfold waiting in Hw. unfold channel.send. rewrite Hw. simpl.
  eexists _, _. split; [reflexivity|].
  unfold channel.close. simpl. rewrite lookup_insert_eq. simpl.
  split_and!; [reflexivity| |].
  - by rewrite insert_insert_eq.
  - by rewrite <- app_assoc.
Qed.

Lemma notifyLoop_spec status rest : ∀ kept cs,
  NoDup (map notificationC rest) →
  (∀ sub, sub ∈ rest → waiting cs sub) →
  ∃ cs',
    notifyLoop status kept rest cs
      = (Returns (), kept ++ filter (λ sub, ¬ fires status sub) rest, cs') ∧
    (∀ sub, sub ∈ rest → fires status sub → fired cs' status sub) ∧
    (∀ sub, sub ∈ rest → ¬ fires status sub → waiting cs' sub) ∧
    (∀ c, c ∉ map notificationC rest →
          channel.chan_of cs' !! c = channel.chan_of cs !! c) ∧
    channel.chan_log cs'
      = channel.chan_log cs ++
        flat_map (λ sub, [channel.Sent (notificationC sub) status;
                          channel.Closed (notificationC sub)])
                 (filter (λ sub, fires status sub) rest).
Proof.
  induction rest as [|s rest IH]; intros kept cs Hnd Hwait.
  - exists cs. simpl. rewrite !app_nil_r. split_and!; try done.
    + intros sub Hin. by apply elem_of_nil in Hin.
    + intros sub Hin. by apply elem_of_nil in Hin.
  - simpl in Hnd. apply NoDup_cons in Hnd as [Hs Hnd].
    assert (∀ sub, sub ∈ rest → notificationC sub ≠ notificationC s) as Hother.
    { intros sub Hin Heq. apply Hs. rewrite <- Heq. by apply list_elem_of_fmap_2. }
    simpl. destruct (fires status s) eqn:Hf.
    + destruct (send_close_waiting cs status s) as (cs1 & cs2 & -> & -> & Hmap & Hlog).
      { apply Hwait. left. }
      destruct (IH kept cs2 Hnd) as (cs' & Heq & Hfired & Hkeep & Hsame & Hlog').
      { intros sub Hin. unfold waiting. rewrite Hmap.
        rewrite lookup_insert_ne by (symmetry; by apply Hother).
        apply Hwait. by right. }
      exists cs'. rewrite Heq.
      rewrite (filter_cons_False _ s) by (rewrite Hf; simpl; tauto).
      rewrite (filter_cons_True _ s) by (by rewrite Hf).
      split_and!; [done| | | |].
      * intros sub Hin Hfs. apply elem_of_cons in Hin as [->|Hin]; [|by apply Hfired].
        unfold fired. rewrite (Hsame _ Hs), Hmap. apply lookup_insert_eq.
      * intros sub Hin Hfs. apply elem_of_cons in Hin as [->|Hin]; [|by apply Hkeep].
        rewrite Hf in Hfs. simpl in Hfs. tauto.
      * intros c Hc. simpl in Hc. apply not_elem_of_cons in Hc as [Hne Hc].
        rewrite (Hsame _ Hc), Hmap. by rewrite lookup_insert_ne.
      * rewrite Hlog', Hlog. simpl. by rewrite <- app_assoc.
    + destruct (IH (kept ++ [s]) cs Hnd) as (cs' & Heq & Hfired & Hkeep & Hsame & Hlog').
      { intros sub Hin. apply Hwait. by right. }
      exists cs'. rewrite Heq.
      rewrite (filter_cons_True _ s) by (rewrite Hf; simpl; tauto).
      rewrite (filter_cons_False _ s) by (rewrite Hf; simpl; tauto).
      rewrite <- (app_assoc kept [s]). simpl.
      split_and!; [done| | | |done].
      * intros sub Hin Hfs. apply elem_of_cons in Hin as [->|Hin]; [|by apply Hfired].
        by rewrite Hf in Hfs.
      * intros sub Hin Hfs. apply elem_of_cons in Hin as [->|Hin]; [|by apply Hkeep].
        unfold waiting. rewrite (Hsame _ Hs). apply Hwait. left.
      * intros c Hc. simpl in Hc. apply not_elem_of_cons in Hc as [Hne Hc].
        by apply Hsame.
Qed.

Lemma fires_iff status sub :
  fires status sub ↔
  Name status = FAILED ∨ Name status = CANCELLED ∨
  subscribedOffset sub <= Offset status.
Proof.
  unfold fires. rewrite !orb_True, !bool_decide_spec, Is_true_true, Z.leb_le.
  tauto.
Qed.

Lemma notifySubscribers_spec st :
  subscribers_wait st →
  ∃ st',
    notifySubscribers st = (Returns (), st') ∧
    status (job st') = status (job st) ∧
    fileInfoCache st' = fileInfoCache st ∧
    subscribers (job st')
      = filter (λ sub, ¬ fires (status (job st)) sub) (subscribers (job st)) ∧
    (∀ sub, sub ∈ subscribers (job st) → fires (status (job st)) sub →
            fired (chans st') (status (job st)) sub) ∧
    (∀ sub, sub ∈ subscribers (job st) → ¬ fires (status (job st)) sub →
            waiting (chans st') sub) ∧
    channel.chan_log (chans st')
      = channel.chan_log (chans st) ++
        flat_map (λ sub, [channel.Sent (notificationC sub) (status (job st));
                          channel.Closed (notificationC sub)])
                 (filter (λ sub, fires (status (job st)) sub) (subscribers (job st))).
Proof.
  intros [Hnd Hwait]. unfold notifySubscribers.
  destruct (notifyLoop_spec (status (job st)) (subscribers (job st)) [] (chans st) Hnd Hwait)
    as (cs' & -> & Hfired & Hkeep & _ & Hlog).
  eexists. split; [reflexivity|]. simpl. split_and!; done.
Qed.

(** [updateFileInfoCache] writes neither a field of the job nor a
    channel, however it ends. *)
Lemma updateFileInfoCache_keeps_job P st :
  job (snd (updateFileInfoCache P st)) = job st ∧
  chans (snd (updateFileInfoCache P st)) = chans st.
Proof.
  unfold updateFileInfoCache, fileInfoCache_Insert.
  repeat case_match; simplify_eq; done.
Qed.

(** No call changes the offset of the status. *)
Lemma step_Offset P st (k : call) :
  Offset (status (job (step P st k))) = Offset (status (job st)).
Proof.
  destruct k; cbn [step];
    try (by rewrite (proj1 (updateFileInfoCache_keeps_job P st)));
    simpl; try done.
  - unfold failWhileDownloading, notifySubscribers. simpl.
    by destruct (notifyLoop _ _ _ _) as [[r subs] cs].
  - unfold notifySubscribers. by destruct (notifyLoop _ _ _ _) as [[r subs] cs].
Qed.

Lemma run_Offset P calls st :
  Offset (status (job (run P calls st))) = Offset (status (job st)).
Proof.
  revert st. induction calls as [|k calls IH]; intros st; [done|].
  simpl. fold (run P calls (step P st k)). by rewrite IH, step_Offset.
Qed.

(** The subscribers of a new job, and of a job after any call, wait on
    channels of their own. *)
Lemma NewJob_subscribers_wait object bucket cache size spec cs :
  subscribers_wait (snd (NewJob object bucket cache size spec cs)).
Proof.
  split; simpl; [constructor|]. intros sub Hin. by apply elem_of_nil in Hin.
Qed.

Lemma subscribe_subscribers_wait offset st :
  subscribers_wait st → subscribers_wait (snd (subscribe offset st)).
Proof.
  intros [Hnd Hwait]. unfold subscribe, channel.make. simpl.
  set (c := fresh (dom (channel.chan_of (chans st)))).
  assert (channel.chan_of (chans st) !! c = None) as Hc.
  { apply not_elem_of_dom. apply is_fresh. }
  split; simpl.
  - rewrite map_app. simpl. apply NoDup_app. split_and!; [done| |apply NoDup_singleton].
    intros x Hx Hx'. apply list_elem_of_singleton in Hx'. subst x.
    apply list_elem_of_fmap in Hx as (sub & Heq & Hin).
    specialize (Hwait sub Hin). unfold waiting in Hwait. congruence.
  - intros sub Hin. unfold waiting. simpl.
    apply elem_of_app in Hin as [Hin|Hin].
    + specialize (Hwait sub Hin). unfold waiting in Hwait.
      rewrite lookup_insert_ne; [done|]. intros Heq. congruence.
    + apply list_elem_of_singleton in Hin. subst sub. simpl.
      apply lookup_insert_eq.
Qed.

Lemma notifySubscribers_subscribers_wait st :
  subscribers_wait st → subscribers_wait (snd (notifySubscribers st)).
Proof.
  intros Hw. pose proof Hw as [Hnd Hwait].
  destruct (notifySubscribers_spec st Hw)
    as (st' & -> & _ & _ & Hsubs & _ & Hkeep & _).
  split; simpl; rewrite Hsubs.
  - clear -Hnd. induction (subscribers (job st)) as [|s l IH]; [constructor|].
    simpl in Hnd. apply NoDup_cons in Hnd as [Hs Hnd].
    destruct (decide (¬ fires (status (job st)) s)) as [Hf|Hf].
    + rewrite filter_cons_True by done. simpl. apply NoDup_cons. split; [|by apply IH].
      intros Hin. apply Hs. apply list_elem_of_fmap in Hin as (sub & Heq & Hin).
      apply list_elem_of_filter in Hin as [_ Hin]. rewrite Heq.
      by apply list_elem_of_fmap_2.
    + rewrite filter_cons_False by done. by apply IH.
  - intros sub Hin. apply list_elem_of_filter in Hin as [Hf Hin]. by apply Hkeep.
Qed.

Lemma step_subscribers_wait P st (k : call) :
  subscribers_wait st → subscribers_wait (step P st k).
Proof.
  intros Hw. destruct k; cbn [step]; try done.
  - unfold failWhileDownloading. by apply notifySubscribers_subscribers_wait.
  - by apply subscribe_subscribers_wait.
  - by apply notifySubscribers_subscribers_wait.
  - destruct (updateFileInfoCache_keeps_job P st) as [Hjob Hchans].
    unfold subscribers_wait, waiting. by rewrite Hjob, Hchans.
Qed.

Lemma run_subscribers_wait P calls st :
  subscribers_wait st → subscribers_wait (run P calls st).
Proof.
  revert st. induction calls as [|k calls IH]; intros st Hw; [done|].
  simpl. fold (run P calls (step P st k)). by apply IH, step_subscribers_wait.
Qed.

(** [Cancel] leaves a job that has ended as it is. *)
Lemma Cancel_terminal st :
  terminal (Name (status (job st))) → Cancel st = (Returns (), st).
Proof. done. Qed.

End JobFacts.

(** *** Download *)

(** C6.  [Download] on a job that has just been created, with
    [waitForDownload = false].  The job is in state NOT_STARTED before and
    after the call (no fetch is started, the state is not DOWNLOADING),
    and the status returned is the zero [JobStatus], whose name is empty,
    not the status of the job. *)
Theorem Download_does_not_start :
  let st := scenario_job in
  downloader.Name (downloader.status (downloader.job st)) = downloader.NOT_STARTED ∧
  downloader.Download (downloader.mkContext false) 0 false st
    = (Returns (downloader.mkJobStatus "" None 0), st) ∧
  downloader.status (downloader.job st) ≠ downloader.mkJobStatus "" None 0.
Proof. vm_compute. split_and!; [done|done|discriminate]. Qed.

(** *** Notification of the subscribers *)

(** C7.  When every subscriber in the list waits on a channel of its own,
    [notifySubscribers] returns, and: a subscriber is fired exactly when
    the status is FAILED or CANCELLED or its subscribed offset is at most
    the offset of the status; every such subscriber has the status in its
    channel, which is closed, and is no longer in the list; the others
    stay in the list, in their order, and still wait; the sends and closes
    happen once per fired subscriber, in the order of the list.
    [failWhileDownloading] returns with the status FAILED carrying the
    error and the offset unchanged, every subscriber has that status in
    its closed channel, and the list is empty. *)
Theorem subscribers_notified (st : downloader.State) :
  downloader.subscribers_wait st →
  let status := downloader.status (downloader.job st) in
  let subs := downloader.subscribers (downloader.job st) in
  let notes (status : downloader.JobStatus) (subs : list downloader.jobSubscriber) :=
    flat_map (λ sub, [channel.Sent (downloader.notificationC sub) status;
                      channel.Closed (downloader.notificationC sub)]) subs in
  (∀ sub, downloader.fires status sub ↔
          downloader.Name status = downloader.FAILED ∨
          downloader.Name status = downloader.CANCELLED ∨
          downloader.subscribedOffset sub <= downloader.Offset status) ∧
  (∃ st',
     downloader.notifySubscribers st = (Returns (), st') ∧
     downloader.status (downloader.job st') = status ∧
     downloader.subscribers (downloader.job st')
       = filter (λ sub, ¬ downloader.fires status sub) subs ∧
     (∀ sub, sub ∈ subs → downloader.fires status sub →
             downloader.fired (downloader.chans st') status sub) ∧
     (∀ sub, sub ∈ subs → ¬ downloader.fires status sub →
             downloader.waiting (downloader.chans st') sub) ∧
     channel.chan_log (downloader.chans st')
       = channel.chan_log (downloader.chans st)
         ++ notes status (filter (λ sub, downloader.fires status sub) subs)) ∧
  (∀ downloadErr, ∃ st',
     downloader.failWhileDownloading downloadErr st = (Returns (), st') ∧
     downloader.status (downloader.job st')
       = downloader.mkJobStatus downloader.FAILED downloadErr (downloader.Offset status) ∧
     downloader.subscribers (downloader.job st') = [] ∧
     (∀ sub, sub ∈ subs →
             downloader.fired (downloader.chans st')
               (downloader.status (downloader.job st')) sub) ∧
     channel.chan_log (downloader.chans st')
       = channel.chan_log (downloader.chans st)
         ++ notes (downloader.status (downloader.job st')) subs).
Proof.
  intros Hwait. simpl. split_and!.
  - intros sub. apply fires_iff.
  - destruct (notifySubscribers_spec st Hwait)
      as (st' & Heq & Hst & _ & Hsubs & Hfired & Hkeep & Hlog).
    exists st'. split_and!; done.
  - intros downloadErr. unfold downloader.failWhileDownloading.
    set (st1 := downloader.with_job st _).
    assert (downloader.subscribers_wait st1) as Hwait1 by done.
    destruct (notifySubscribers_spec st1 Hwait1)
      as (st' & Heq & Hst & _ & Hsubs & Hfired & Hkeep & Hlog).
    assert (∀ sub, downloader.fires (downloader.status (downloader.job st1)) sub)
      as Hall.
    { intros sub. apply fires_iff. by left. }
    exists st'. rewrite Hst. split_and!; [done|done| | |].
    + rewrite Hsubs. apply filter_none. intros sub _ Hn. apply Hn, Hall.
    + intros sub Hin. by apply Hfired.
    + rewrite Hlog. rewrite filter_all by (intros sub _; apply Hall). done.
Qed.

Lemma scenario_downloading_waits : downloader.subscribers_wait scenario_downloading.
Proof.
  split.
  - apply (bool_decide_unpack _). by vm_compute.
  - apply Forall_forall. vm_compute. repeat constructor.
Qed.

Lemma subscribers_notified_witness :
  let st := scenario_downloading in
  let status := downloader.status (downloader.job st) in
  let subs := downloader.subscribers (downloader.job st) in
  let notes (status : downloader.JobStatus) (subs : list downloader.jobSubscriber) :=
    flat_map (λ sub, [channel.Sent (downloader.notificationC sub) status;
                      channel.Closed (downloader.notificationC sub)]) subs in
  downloader.subscribers_wait st ∧
  (∀ sub, downloader.fires status sub ↔
          downloader.Name status = downloader.FAILED ∨
          downloader.Name status = downloader.CANCELLED ∨
          downloader.subscribedOffset sub <= downloader.Offset status) ∧
  (∃ st',
     downloader.notifySubscribers st = (Returns (), st') ∧
     downloader.status (downloader.job st') = status ∧
     downloader.subscribers (downloader.job st')
       = filter (λ sub, ¬ downloader.fires status sub) subs ∧
     (∀ sub, sub ∈ subs → downloader.fires status sub →
             downloader.fired (downloader.chans st') status sub) ∧
     (∀ sub, sub ∈ subs → ¬ downloader.fires status sub →
             downloader.waiting (downloader.chans st') sub) ∧
     channel.chan_log (downloader.chans st')
       = channel.chan_log (downloader.chans st)
         ++ notes status (filter (λ sub, downloader.fires status sub) subs)) ∧
  (∀ downloadErr, ∃ st',
     downloader.failWhileDownloading downloadErr st = (Returns (), st') ∧
     downloader.status (downloader.job st')
       = downloader.mkJobStatus downloader.FAILED downloadErr (downloader.Offset status) ∧
     downloader.subscribers (downloader.job st') = [] ∧
     (∀ sub, sub ∈ subs →
             downloader.fired (downloader.chans st')
               (downloader.status (downloader.job st')) sub) ∧
     channel.chan_log (downloader.chans st')
       = channel.chan_log (downloader.chans st)
         ++ notes (downloader.status (downloader.job st')) subs).
Proof.
  exact (conj scenario_downloading_waits
           (subscribers_notified scenario_downloading scenario_downloading_waits)).
Defined.

(** The fan-out on failure, evaluated: with subscribers for the offsets
    10, 1000 and 1,000,000 and 50 bytes downloaded, a failure of the fetch
    leaves no subscriber in the list, and each of the three channels holds
    the one FAILED status with the error and is closed. *)
Example fan_out_on_failure :
  let failed := downloader.mkJobStatus downloader.FAILED (Some "read error") 50 in
  let st' := snd (downloader.failWhileDownloading (Some "read error")
                    scenario_downloading) in
  map downloader.subscribedOffset
      (downloader.subscribers (downloader.job scenario_downloading))
    = [10; 1000; 1000000] ∧
  fst (downloader.failWhileDownloading (Some "read error") scenario_downloading)
    = Returns () ∧
  downloader.status (downloader.job st') = failed ∧
  downloader.subscribers (downloader.job st') = [] ∧
  map (λ c, channel.chan_of (downloader.chans st') !! c) [0; 1; 2]%nat
    = [Some (channel.mkChan 1 [failed] true);
       Some (channel.mkChan 1 [failed] true);
       Some (channel.mkChan 1 [failed] true)].
Proof. vm_compute. split_and!; done. Qed.

(** *** Cancel *)

(** C8.  [Cancel] on a job in state NOT_STARTED with one subscriber.  The
    call returns and changes nothing: the job is still NOT_STARTED, not
    CANCELLED, and its subscriber is still in the list, waiting on a
    channel that is empty and open. *)
Theorem Cancel_does_nothing :
  let st := snd (downloader.subscribe 100 scenario_job) in
  downloader.Name (downloader.status (downloader.job st)) = downloader.NOT_STARTED ∧
  downloader.Cancel st = (Returns (), st) ∧
  downloader.Name (downloader.status (downloader.job (snd (downloader.Cancel st))))
    ≠ downloader.CANCELLED ∧
  downloader.subscribers (downloader.job (snd (downloader.Cancel st)))
    = [downloader.mkJobSubscriber 0 100] ∧
  channel.chan_of (downloader.chans (snd (downloader.Cancel st))) !! 0%nat
    = Some (channel.mkChan 1 [] false).
Proof. vm_compute. split_and!; [done|done|discriminate|done|done]. Qed.

(** *** The offset of the status *)

(** C9.  Across every sequence of calls on a job ([Download], [Cancel],
    [failWhileDownloading], and also [subscribe], [notifySubscribers] and
    [updateFileInfoCache]), from any state: while the name of the status is
    DOWNLOADING the offset does not decrease over the calls that follow,
    and once the name is COMPLETED, FAILED or CANCELLED the offset is the
    same after any further calls. *)
Theorem status_offset_monotone (P : downloader.Imports)
    (st : downloader.State) (calls1 calls2 : list downloader.call) :
  let s1 := downloader.status (downloader.job (downloader.run P calls1 st)) in
  let s2 := downloader.status
              (downloader.job (downloader.run P calls2 (downloader.run P calls1 st))) in
  (downloader.Name s1 = downloader.DOWNLOADING →
   downloader.Offset s1 <= downloader.Offset s2) ∧
  (downloader.terminal (downloader.Name s1) →
   downloader.Offset s2 = downloader.Offset s1).
Proof.
  simpl. rewrite (run_Offset P calls2). split; intros _; [lia|done].
Qed.

Lemma status_offset_monotone_witness :
  let P := scenario_imports in
  let calls := [downloader.CallDownload (downloader.mkContext false) 1000 false;
                downloader.CallSubscribe 2000;
                downloader.CallCancel] in
  let failure := [downloader.CallFailWhileDownloading (Some "read error")] in
  let s1 := downloader.status (downloader.job scenario_downloading) in
  let s2 := downloader.status
              (downloader.job (downloader.run P calls scenario_downloading)) in
  let t1 := downloader.status
              (downloader.job (downloader.run P failure scenario_downloading)) in
  let t2 := downloader.status
              (downloader.job
                 (downloader.run P calls (downloader.run P failure scenario_downloading))) in
  (downloader.Name s1 = downloader.DOWNLOADING ∧
   downloader.Offset s1 <= downloader.Offset s2) ∧
  (downloader.terminal (downloader.Name t1) ∧
   downloader.Offset t2 = downloader.Offset t1).
Proof.
  intros P calls failure s1 s2 t1 t2.
  assert (downloader.Name s1 = downloader.DOWNLOADING) as Hdown by reflexivity.
  assert (downloader.terminal (downloader.Name t1)) as Hterm
    by (right; left; reflexivity).
  exact (conj
    (conj Hdown
       (proj1 (status_offset_monotone P scenario_downloading [] calls) Hdown))
    (conj Hterm
       (proj2 (status_offset_monotone P scenario_downloading failure calls) Hterm))).
Defined.

(** ** Progress writes to the file info cache *)

Section Promotion.
Import lru.
Context {V : Type} `{Weighted V}.
Implicit Types (c : Cache V).

Lemma head_recency c e en :
  head (GoList.cells (entries c)) = Some (e, en) → head (recency c) = Some en.
Proof.
  unfold recency, GoList.values. by destruct (GoList.cells (entries c)) as [|? ?]; intros [= ->].
Qed.

Lemma mapping_head c e key v :
  wf c → head (GoList.cells (entries c)) = Some (e, mkEntry key v) →
  mapping c key = v.
Proof.
  intros Hwf Hhead.
  destruct (GoList.cells (entries c)) as [|ce cs] eqn:Hcs; [done|].
  injection Hhead as ->.
  assert ((e, mkEntry key v) ∈ GoList.cells (entries c)) as Hin
    by (rewrite Hcs; left).
  pose proof (wf_index_cell c _ _ Hwf Hin) as Hidx. simpl in Hidx.
  unfold mapping. rewrite Hidx. simpl.
  unfold GoList.Value. rewrite Hcs. simpl. by rewrite decide_True.
Qed.

(** [Insert] of a value that fits leaves its entry at the front. *)
Lemma Insert_front key v c :
  wf c → Weight v <= maxWeight c →
  ∃ evicted c',
    Insert key (Some v) c = (Returns evicted, c') ∧
    wf c' ∧
    head (recency c') = Some (mkEntry key (Some v)) ∧
    mapping c' key = Some v.
Proof.
  intros Hwf Hfit.
  destruct (Insert_wf key v c Hwf)
    as (c1 & c' & tl & e & Heq & _ & Hwf' & _ & _ & _ & _ & _ & Hhead).
  specialize (Hhead Hfit). eexists _, c'. split; [exact Heq|].
  split_and!; [done|by eapply head_recency|by eapply mapping_head].
Qed.

(** [LookUp] of a key that is present leaves its entry at the front. *)
Lemma LookUp_front key c :
  wf c → is_Some (index c !! key) →
  ∃ v,
    fst (LookUp key c) = Returns (Some v) ∧
    head (recency (snd (LookUp key c))) = Some (mkEntry key (Some v)).
Proof.
  intros Hwf [e Hidx].
  destruct (LookUp_hit key c e Hwf Hidx) as (v & _ & _ & ->). by exists v.
Qed.

End Promotion.

(* ================================================================= *)
(** * Further properties of the cache *)

Section CacheContents.
Import lru.
Context {V : Type} `{Weighted V}.
Implicit Types (c : Cache V) (en : entry V) (es : list (entry V))
  (cs : list (GoList.Element * entry V)) (key k : string).

(** The cell of an indexed key is the only cell with that key. *)
Lemma wf_cell_key c e key :
  wf c → index c !! key = Some e →
  ∀ ce, ce ∈ GoList.cells (entries c) → (fst ce = e ↔ Key (snd ce) = key).
Proof.
  intros Hwf Hidx [e' en'] Hin. simpl.
  pose proof (proj1 (wf_index c Hwf key e) Hidx) as [v Hkey].
  split.
  - intros ->.
    by rewrite (cell_unique _ _ _ _ (wf_nodup c Hwf) Hin Hkey).
  - intros Hk. pose proof (wf_index_cell c _ _ Hwf Hin) as Hi.
    rewrite Hk in Hi. congruence.
Qed.

Lemma wf_absent_key c key :
  wf c → index c !! key = None → key ∉ map Key (recency c).
Proof.
  intros Hwf Hidx Hin. apply list_elem_of_fmap in Hin as (en & -> & Hin).
  unfold recency, GoList.values in Hin.
  apply list_elem_of_fmap in Hin as ([e en'] & -> & Hin).
  pose proof (wf_index_cell c _ _ Hwf Hin) as Hi. simpl in *. congruence.
Qed.

Lemma wf_present_key c e key :
  wf c → index c !! key = Some e → key ∈ map Key (recency c).
Proof.
  intros Hwf Hidx. apply (wf_index c Hwf) in Hidx as [v Hin].
  unfold recency, GoList.values. rewrite map_map.
  change key with ((λ ce : nat * entry V, Key (snd ce)) (e, mkEntry key v)).
  by apply list_elem_of_fmap_2.
Qed.

Lemma map_snd_without_key cs e key :
  (∀ ce, ce ∈ cs → (fst ce = e ↔ Key (snd ce) = key)) →
  map snd (GoList.without e cs) = filter (λ en, Key en ≠ key) (map snd cs).
Proof.
  induction cs as [|[e' en'] cs IH]; intros Hiff; [done|].
  assert (∀ ce, ce ∈ cs → fst ce = e ↔ Key ce.2 = key) as Hiff'
    by (intros ce Hin; apply Hiff; by right).
  specialize (Hiff (e', en') ltac:(left)). simpl in Hiff.
  unfold GoList.without in *. simpl.
  destruct (decide (e' = e)) as [->|Hne].
  - rewrite filter_cons_False by (simpl; tauto).
    rewrite (filter_cons_False (λ en, Key en ≠ key)) by (pose proof (proj1 Hiff eq_refl); tauto).
    by apply IH.
  - rewrite filter_cons_True by (simpl; done).
    rewrite (filter_cons_True (λ en, Key en ≠ key)) by (intros Hk; by apply Hne, Hiff).
    simpl. f_equal. by apply IH.
Qed.

Lemma filter_absent_key es key :
  key ∉ map Key es → filter (λ en, Key en ≠ key) es = es.
Proof.
  intros Hnotin. apply filter_all. intros en Hin Heq. apply Hnotin.
  rewrite <- Heq. by apply list_elem_of_fmap_2.
Qed.

Lemma valueIn_filter_ne es key k :
  k ≠ key → valueIn k (filter (λ en, Key en ≠ key) es) = valueIn k es.
Proof.
  intros Hne. induction es as [|en es IH]; [done|].
  destruct (decide (Key en = key)) as [Heq|Hk].
  - rewrite filter_cons_False by tauto. simpl.
    rewrite decide_False by congruence. done.
  - rewrite filter_cons_True by done. simpl. by rewrite IH.
Qed.

Lemma wf_mapping c key : wf c → mapping c key = valueIn key (recency c).
Proof. intros Hwf. by apply mapping_valueIn, wf_indexed. Qed.

(** A key has a value exactly when it is in the index. *)
Lemma wf_mapping_index c key :
  wf c → (is_Some (mapping c key) ↔ is_Some (index c !! key)).
Proof.
  intros Hwf. split.
  - unfold mapping. destruct (index c !! key); [eauto|]. by intros [? ?].
  - intros [e Hidx]. destruct (wf_index_Value c key e Hwf Hidx) as [v Hv].
    unfold mapping. rewrite Hidx. simpl. rewrite Hv. simpl. eauto.
Qed.

End CacheContents.

Section InsertContents.
Import lru.
Context {V : Type} `{Weighted V}.
Implicit Types (c : Cache V) (en : entry V) (es : list (entry V)) (key k : string).

(** The eviction loop on a cache that satisfies the invariant: it removes
    a suffix of the list, and not more than it has to: just before the
    last removal the occupied weight was still above [maxWeight]. *)
Lemma evictLoop_spec fuel evs c :
  wf c → (length (GoList.cells (entries c)) < fuel)%nat →
  ∃ c' tl,
    evictLoop fuel evs c
      = (Returns (evs ++ map (λ ce, Value (snd ce)) (reverse tl)), c') ∧
    wf c' ∧
    occupiedWeight c' <= maxWeight c' ∧
    maxWeight c' = maxWeight c ∧
    GoList.cells (entries c) = GoList.cells (entries c') ++ tl ∧
    (∀ ce tl', tl = ce :: tl' →
       maxWeight c < (totalWeight c' + weight_of (snd ce)) mod uint64_modulus).
Proof.
  revert evs c. induction fuel as [|fuel IH]; intros evs c Hwf Hlen; [lia|].
  simpl. destruct (maxWeight c <? occupiedWeight c) eqn:Hcmp.
  - apply Z.ltb_lt in Hcmp.
    destruct (GoList.Back (entries c)) as [[e en]|] eqn:Hback.
    + apply Back_Some in Hback as [cs Hcs].
      rewrite (evictOne_wf c cs e en Hwf Hcs).
      pose proof (wf_evict c cs e en Hwf Hcs) as Hwf1.
      destruct (IH (evs ++ [Value en]) _ Hwf1)
        as (c' & tl & Heq & Hwf' & Hle & Hmax & Hpre & Hmin).
      { simpl. rewrite Hcs, length_app in Hlen. simpl in Hlen. lia. }
      exists c', (tl ++ [(e, en)]). simpl in *.
      rewrite Heq, reverse_app. simpl. rewrite <- app_assoc. simpl.
      split_and!; try done.
      * rewrite Hcs, Hpre. by rewrite app_assoc.
      * intros ce tl' Htl. destruct tl as [|ce0 tl0]; simpl in Htl.
        -- injection Htl as <- <-. simpl.
           rewrite app_nil_r in Hpre. rewrite (wf_weight c Hwf) in Hcmp.
           unfold totalWeight in *. rewrite Hcs, sum_weights_app, Hpre in Hcmp.
           simpl in Hcmp. by rewrite Z.add_0_r in Hcmp.
        -- injection Htl as <- <-. by eapply Hmin.
    + apply Back_None in Hback.
      rewrite (occupied_empty c Hwf Hback) in Hcmp.
      pose proof (wf_max c Hwf) as [Hm _]. lia.
  - apply Z.ltb_ge in Hcmp. exists c, []. rewrite !app_nil_r.
    split_and!; done.
Qed.

(** The first half of [Insert]: the cache when the entry has been written
    and moved to the front, before the eviction loop runs. *)
Lemma Insert_written key v c :
  wf c →
  ∃ c1,
    Insert key (Some v) c = evictLoop (S (GoList.Len (entries c1))) [] c1 ∧
    wf c1 ∧
    maxWeight c1 = maxWeight c ∧
    recency c1 = mkEntry key (Some v) :: filter (λ en, Key en ≠ key) (recency c) ∧
    occupiedWeight c1
      = add64 (match mapping c key with
               | Some old => sub64 (occupiedWeight c) (Weight old)
               | None => occupiedWeight c
               end) (Weight v).
Proof.
  intros Hwf. unfold Insert, mapping.
  destruct (index c !! key) as [e|] eqn:Hidx.
  - destruct (wf_index_Value c key e Hwf Hidx) as [v0 Hv0]. rewrite Hv0.
    cbn -[evictLoop]. rewrite (MoveToFront_SetValue _ _ _ _ Hv0).
    set (c1 := mkCache _ _ _ _). exists c1.
    split; [reflexivity|]. subst c1.
    split_and!; [|done| |simpl; by rewrite Hv0].
    + apply (wf_promote c key e); [done|done|done|by eexists|].
      rewrite (wf_weight c Hwf), sub64_mod.
      unfold add64. rewrite Z.add_mod_idemp_l by done. f_equal.
      unfold totalWeight.
      rewrite (sum_weights_without _ e (mkEntry key (Some v0)) (wf_nodup c Hwf)).
      * unfold weight_of. simpl. lia.
      * by apply lookup_cell_Some_elem.
    + unfold recency, GoList.values. simpl. f_equal.
      apply map_snd_without_key. by apply wf_cell_key.
  - cbn -[evictLoop]. set (c1 := mkCache _ _ _ _). exists c1.
    split; [reflexivity|]. subst c1.
    split_and!; [by apply wf_push_front|done| |done].
    unfold recency, GoList.values. simpl. f_equal. symmetry.
    apply filter_absent_key. by apply wf_absent_key.
Qed.

Lemma map_Value_reverse (tl : list (GoList.Element * entry V)) :
  map (λ ce, Value (snd ce)) (reverse tl) = map Value (reverse (map snd tl)).
Proof.
  induction tl as [|ce tl IH]; [done|].
  simpl. rewrite !reverse_cons, !map_app, IH. done.
Qed.

Lemma Insert_contents_wf key v c :
  wf c →
  ∃ evictedEntries c',
    Insert key (Some v) c = (Returns (map Value (reverse evictedEntries)), c') ∧
    wf c' ∧
    recency c' ++ evictedEntries
      = mkEntry key (Some v) :: filter (λ en, Key en ≠ key) (recency c) ∧
    maxWeight c' = maxWeight c ∧
    occupiedWeight c' <= maxWeight c' ∧
    (∀ en rest, evictedEntries = en :: rest →
       maxWeight c < (totalWeight c' + weight_of en) mod uint64_modulus).
Proof.
  intros Hwf.
  destruct (Insert_written key v c Hwf) as (c1 & -> & Hwf1 & Hmax1 & Hrec1 & _).
  destruct (evictLoop_spec (S (GoList.Len (entries c1))) [] c1 Hwf1)
    as (c' & tl & Heq & Hwf' & Hle & Hmax & Hpre & Hmin).
  { unfold GoList.Len. lia. }
  exists (map snd tl), c'. rewrite Heq. simpl.
  split_and!; try done.
  - by rewrite map_Value_reverse.
  - rewrite <- Hrec1. unfold recency, GoList.values. by rewrite Hpre, map_app.
  - congruence.
  - intros en rest Htl. destruct tl as [|ce tl']; [done|].
    simpl in Htl. injection Htl as <- <-. rewrite <- Hmax1. by eapply Hmin.
Qed.

End InsertContents.

Section CheckInvariantsFacts.
Import lru.
Context {V : Type} `{Weighted V}.
Implicit Types (c : Cache V) (en : entry V) (key k : string).

(** The pairs the index holds, read off the list. *)
Lemma index_of_cells c :
  indexed c →
  index c = list_to_map (map (λ ce, (Key (snd ce), fst ce)) (GoList.cells (entries c))).
Proof.
  intros Hix. pose proof (indexed_keys_NoDup c Hix) as Hkeys.
  destruct Hix as (Hnd & _ & Hidx).
  apply map_eq. intros k. apply option_eq. intros e.
  rewrite <- elem_of_list_to_map.
  - rewrite Hidx. split.
    + intros [v Hin].
      change (k, e) with ((λ ce : nat * entry V, (Key (snd ce), fst ce)) (e, mkEntry k v)).
      by apply list_elem_of_fmap_2.
    + intros Hin. apply list_elem_of_fmap in Hin as ([e' en'] & [= -> ->] & Hin).
      exists (Value en'). by rewrite entry_eta.
  - unfold recency, GoList.values in Hkeys. rewrite map_map in Hkeys.
    by rewrite <- list_fmap_compose.
Qed.

Lemma indexed_size c :
  indexed c → size (index c) = GoList.Len (entries c).
Proof.
  intros Hix. pose proof (indexed_keys_NoDup c Hix) as Hkeys.
  rewrite (index_of_cells c Hix) at 1. rewrite map_size_list_to_map.
  - unfold GoList.Len. by rewrite length_map.
  - unfold recency, GoList.values in Hkeys. rewrite map_map in Hkeys.
    by rewrite <- list_fmap_compose.
Qed.

Lemma CheckInvariants_wf c :
  wf c → 0 < maxWeight c → occupiedWeight c <= maxWeight c →
  CheckInvariants c = Returns ().
Proof.
  intros Hwf Hpos Hle. unfold CheckInvariants.
  rewrite (proj2 (Z.ltb_lt _ _) Hpos), (proj2 (Z.leb_le _ _) Hle). simpl.
  rewrite bool_decide_eq_true_2 by (symmetry; by apply indexed_size, wf_indexed).
  simpl.
  destruct (list_find _ _) as [[i ce]|] eqn:Hfind; [|done].
  apply list_find_Some in Hfind as (Hl & Hne & _). exfalso. apply Hne.
  destruct ce as [e en]. apply (wf_index_cell c _ _ Hwf).
  by eapply list_elem_of_lookup_2.
Qed.

(** What a [CheckInvariants] that returns has checked. *)
Lemma CheckInvariants_Returns c :
  CheckInvariants c = Returns () →
  0 < maxWeight c ∧
  occupiedWeight c <= maxWeight c ∧
  GoList.Len (entries c) = size (index c) ∧
  ∀ ce, ce ∈ GoList.cells (entries c) → index c !! Key (snd ce) = Some (fst ce).
Proof.
  unfold CheckInvariants.
  destruct (0 <? maxWeight c) eqn:Hpos; [|done].
  destruct (occupiedWeight c <=? maxWeight c) eqn:Hle; [|done]. simpl.
  case_bool_decide as Hlen; [|done]. simpl.
  destruct (list_find _ _) as [[i ce]|] eqn:Hfind; [done|]. intros _.
  apply Z.ltb_lt in Hpos. apply Z.leb_le in Hle.
  split_and!; try done.
  apply list_find_None in Hfind. intros ce Hin.
  rewrite Forall_forall in Hfind. specialize (Hfind ce Hin). simpl in Hfind.
  by destruct (decide (index c !! Key (snd ce) = Some (fst ce))).
Qed.

End CheckInvariantsFacts.

Section CheckInvariantsSound.
Import lru.
Context {V : Type} `{Weighted V}.
Implicit Types (c : Cache V).

(** X6.  When [CheckInvariants] returns on a cache (whose list cells are
    distinct elements, as the cells of a Go list are), [maxWeight] is
    positive, the occupied weight is at most [maxWeight], no two entries
    of the list have the same key, and the index holds exactly the
    elements of the list, each under the key of its entry. *)
Theorem CheckInvariants_sound c :
  CheckInvariants c = Returns () →
  NoDup (map fst (GoList.cells (entries c))) →
  0 < maxWeight c ∧
  occupiedWeight c <= maxWeight c ∧
  NoDup (map Key (recency c)) ∧
  ∀ k e, index c !! k = Some e ↔
         ∃ v, (e, mkEntry k v) ∈ GoList.cells (entries c).
Proof.
  intros Hcheck Hnd.
  apply CheckInvariants_Returns in Hcheck as (Hpos & Hle & Hlen & Hcells).
  set (l := map (λ ce : nat * entry V, (Key (snd ce), fst ce))
                (GoList.cells (entries c))).
  assert (NoDup l) as Hndl.
  { apply (NoDup_fmap_1 snd). unfold l.
    rewrite <- list_fmap_compose. exact Hnd. }
  assert (l ≡ₚ map_to_list (index c)) as Hperm.
  { apply submseteq_length_Permutation.
    - apply NoDup_submseteq; [done|]. intros [k e] Hin.
      apply list_elem_of_fmap in Hin as (ce & [= -> ->] & Hin).
      apply elem_of_map_to_list. by apply Hcells.
    - rewrite length_map_to_list. unfold l. rewrite length_map.
      unfold GoList.Len in Hlen. lia. }
  split_and!; [done|done| |].
  - unfold recency, GoList.values. rewrite map_map.
    assert (map (λ ce : nat * entry V, Key (snd ce)) (GoList.cells (entries c))
            = l.*1) as -> by (unfold l; by rewrite <- list_fmap_compose).
    rewrite Hperm. apply NoDup_fst_map_to_list.
  - intros k e. split.
    + intros Hidx. apply elem_of_map_to_list in Hidx. rewrite <- Hperm in Hidx.
      apply list_elem_of_fmap in Hidx as ([e' en'] & [= -> ->] & Hin).
      exists (Value en'). by rewrite entry_eta.
    + intros [v Hin]. by apply (Hcells (e, mkEntry k v)).
Qed.

End CheckInvariantsSound.

Lemma CheckInvariants_sound_witness :
  let c := lru.run [lru.OpInsert "A" (Some (mkBlob "a" 4));
                    lru.OpInsert "B" (Some (mkBlob "b" 4));
                    lru.OpInsert "C" (Some (mkBlob "c" 4))]
                   (lru.mkCache 10 0 GoList.empty ∅) in
  lru.CheckInvariants c = Returns () ∧
  NoDup (map fst (GoList.cells (lru.entries c))) ∧
  0 < lru.maxWeight c ∧
  lru.occupiedWeight c <= lru.maxWeight c ∧
  NoDup (map lru.Key (lru.recency c)) ∧
  ∀ k e, lru.index c !! k = Some e ↔
         ∃ v, (e, lru.mkEntry k v) ∈ GoList.cells (lru.entries c).
Proof.
  intros c.
  assert (lru.CheckInvariants c = Returns ()) as Hcheck by (vm_compute; reflexivity).
  assert (NoDup (map fst (GoList.cells (lru.entries c)))) as Hnd
    by (apply (bool_decide_unpack _); vm_compute; exact I).
  exact (conj Hcheck (conj Hnd (CheckInvariants_sound c Hcheck Hnd))).
Defined.

Section CacheUse.
Import lru.
Context {V : Type} `{Weighted V}.
Implicit Types (c : Cache V) (en : entry V) (key k : string).

Lemma reachable_bounded c : reachable c → occupiedWeight c <= maxWeight c.
Proof.
  intros (m & ops & Hm & ->). apply run_wf; [by apply wf_empty|].
  simpl. apply Hm.
Qed.

(** X1.  On a cache constructed by [New] and used through its interface,
    a value that fits in the cache ([Weight() <= maxWeight]) is found by
    the [LookUp] that follows its [Insert]. *)
Theorem Insert_then_LookUp key (v : V) c :
  reachable c → Weight v <= maxWeight c →
  fst (LookUp key (snd (Insert key (Some v) c))) = Returns (Some v).
Proof.
  intros Hreach Hfit. apply reachable_wf in Hreach as Hwf.
  destruct (Insert_front key v c Hwf Hfit) as (evicted & c' & -> & Hwf' & _ & Hmap).
  simpl. assert (is_Some (index c' !! key)) as [e Hidx].
  { apply wf_mapping_index; [done|]. rewrite Hmap. eauto. }
  destruct (LookUp_hit key c' e Hwf' Hidx) as (v' & _ & Hmap' & ->).
  simpl. congruence.
Qed.

(** X2.  [Insert] of a non-nil value on such a cache returns.  The
    recency list afterwards, followed by the entries that were evicted, is
    the new entry followed by the former list without the key: nothing is
    lost silently and the order of the others is kept.  The values
    returned are those of the evicted entries, least recently used first.
    The cache ends within [maxWeight], and no more is evicted than
    needed: before the last eviction the occupied weight was above
    [maxWeight]. *)
Theorem Insert_contents key (v : V) c :
  reachable c →
  ∃ evictedEntries c',
    Insert key (Some v) c = (Returns (map Value (reverse evictedEntries)), c') ∧
    recency c' ++ evictedEntries
      = mkEntry key (Some v) :: filter (λ en, Key en ≠ key) (recency c) ∧
    maxWeight c' = maxWeight c ∧
    occupiedWeight c' <= maxWeight c' ∧
    (∀ en rest, evictedEntries = en :: rest →
       maxWeight c < (totalWeight c' + weight_of en) mod uint64_modulus).
Proof.
  intros Hreach. apply reachable_wf in Hreach.
  destruct (Insert_contents_wf key v c Hreach)
    as (tl & c' & Heq & _ & Hrec & Hmax & Hle & Hmin).
  by exists tl, c'.
Qed.

Lemma LookUp_contents_wf key c :
  wf c →
  fst (LookUp key c) = Returns (mapping c key) ∧
  wf (snd (LookUp key c)) ∧
  maxWeight (snd (LookUp key c)) = maxWeight c ∧
  occupiedWeight (snd (LookUp key c)) = occupiedWeight c ∧
  recency (snd (LookUp key c))
    = match mapping c key with
      | Some v => mkEntry key (Some v) :: filter (λ en, Key en ≠ key) (recency c)
      | None => recency c
      end.
Proof.
  intros Hwf. destruct (index c !! key) as [e|] eqn:Hidx.
  - destruct (LookUp_hit key c e Hwf Hidx) as (v & Hin & Hmap & Heq).
    rewrite Heq, Hmap. simpl.
    split_and!; try done.
    + apply (wf_promote c key e); [done|done|done|by eexists|].
      rewrite (wf_weight c Hwf). f_equal. unfold totalWeight.
      by apply sum_weights_without; [apply Hwf|].
    + unfold recency, GoList.values. simpl. f_equal.
      apply map_snd_without_key. by apply wf_cell_key.
  - rewrite (LookUp_miss key c Hidx). unfold mapping. rewrite Hidx. done.
Qed.

(** X3.  [LookUp] on such a cache returns the value the cache holds for
    the key, nil when it holds none.  It changes neither [maxWeight] nor
    the occupied weight nor the value of any key; on a hit the entry
    moves to the front of the recency list and the others keep their
    order, on a miss the list is as before. *)
Theorem LookUp_contents key c :
  reachable c →
  fst (LookUp key c) = Returns (mapping c key) ∧
  maxWeight (snd (LookUp key c)) = maxWeight c ∧
  occupiedWeight (snd (LookUp key c)) = occupiedWeight c ∧
  (∀ k, mapping (snd (LookUp key c)) k = mapping c k) ∧
  recency (snd (LookUp key c))
    = match mapping c key with
      | Some v => mkEntry key (Some v) :: filter (λ en, Key en ≠ key) (recency c)
      | None => recency c
      end.
Proof.
  intros Hreach. apply reachable_wf in Hreach as Hwf.
  destruct (LookUp_contents_wf key c Hwf) as (Hres & Hwf' & Hmax & Hocc & Hrec).
  split_and!; try done.
  intros k. rewrite (wf_mapping _ k Hwf'), Hrec.
  pose proof (wf_mapping c key Hwf) as Hkey.
  destruct (mapping c key) as [v|] eqn:Hmap; [|by rewrite wf_mapping].
  rewrite (wf_mapping c k Hwf). simpl.
  destruct (decide (key = k)) as [<-|Hne]; [done|].
  by apply valueIn_filter_ne.
Qed.

(** X4.  A cache constructed by [New] and used through its interface
    never holds two entries with the same key, and never a nil value. *)
Theorem keys_distinct c :
  reachable c →
  NoDup (map Key (recency c)) ∧
  Forall (λ en, is_Some (Value en)) (recency c).
Proof.
  intros Hreach. apply reachable_wf in Hreach as Hwf. split.
  - by apply indexed_keys_NoDup, wf_indexed.
  - apply Forall_forall. intros en Hin. unfold recency, GoList.values in Hin.
    apply list_elem_of_fmap in Hin as (ce & -> & Hin).
    by apply (wf_nonnil c Hwf).
Qed.

(** X5.  On a cache constructed by [New] with [maxWeight > 0] and used
    through its interface, [CheckInvariants] returns: no sequence of
    operations makes it panic. *)
Theorem CheckInvariants_reachable c :
  reachable c → 0 < maxWeight c → CheckInvariants c = Returns ().
Proof.
  intros Hreach Hpos.
  apply CheckInvariants_wf; [by apply reachable_wf|done|by apply reachable_bounded].
Qed.

End CacheUse.

Lemma scenario_cache_reachable : lru.reachable scenario_cache.
Proof.
  eexists 10, _. split; [|reflexivity]. split; [discriminate | reflexivity].
Qed.

Lemma Insert_then_LookUp_witness :
  let v := mkBlob "c" 4 in
  lru.reachable scenario_cache ∧
  lru.Weight v <= lru.maxWeight scenario_cache ∧
  fst (lru.LookUp "C" (snd (lru.Insert "C" (Some v) scenario_cache)))
    = Returns (Some v).
Proof.
  intros v.
  assert (lru.Weight v <= lru.maxWeight scenario_cache) as Hfit
    by (vm_compute; discriminate).
  exact (conj scenario_cache_reachable
           (conj Hfit
              (Insert_then_LookUp "C" v scenario_cache scenario_cache_reachable Hfit))).
Defined.

Lemma Insert_contents_witness :
  let v := mkBlob "c" 4 in
  lru.reachable scenario_cache ∧
  ∃ evictedEntries c',
    lru.Insert "C" (Some v) scenario_cache
      = (Returns (map lru.Value (reverse evictedEntries)), c') ∧
    lru.recency c' ++ evictedEntries
      = lru.mkEntry "C" (Some v)
          :: filter (λ en, lru.Key en ≠ "C") (lru.recency scenario_cache) ∧
    lru.maxWeight c' = lru.maxWeight scenario_cache ∧
    lru.occupiedWeight c' <= lru.maxWeight c' ∧
    (∀ en rest, evictedEntries = en :: rest →
       lru.maxWeight scenario_cache
         < (lru.totalWeight c' + lru.weight_of en) mod uint64_modulus).
Proof.
  exact (conj scenario_cache_reachable
           (Insert_contents "C" (mkBlob "c" 4) scenario_cache scenario_cache_reachable)).
Defined.

Lemma LookUp_contents_witness :
  let r := lru.LookUp "A" scenario_cache in
  lru.reachable scenario_cache ∧
  fst r = Returns (lru.mapping scenario_cache "A") ∧
  lru.maxWeight (snd r) = lru.maxWeight scenario_cache ∧
  lru.occupiedWeight (snd r) = lru.occupiedWeight scenario_cache ∧
  (∀ k, lru.mapping (snd r) k = lru.mapping scenario_cache k) ∧
  lru.recency (snd r)
    = match lru.mapping scenario_cache "A" with
      | Some v => lru.mkEntry "A" (Some v)
                    :: filter (λ en, lru.Key en ≠ "A") (lru.recency scenario_cache)
      | None => lru.recency scenario_cache
      end.
Proof.
  exact (conj scenario_cache_reachable
           (LookUp_contents "A" scenario_cache scenario_cache_reachable)).
Defined.

Lemma keys_distinct_witness :
  lru.reachable scenario_cache ∧
  NoDup (map lru.Key (lru.recency scenario_cache)) ∧
  Forall (λ en, is_Some (lru.Value en)) (lru.recency scenario_cache).
Proof.
  exact (conj scenario_cache_reachable
           (keys_distinct scenario_cache scenario_cache_reachable)).
Defined.

Lemma CheckInvariants_reachable_witness :
  lru.reachable scenario_cache ∧
  0 < lru.maxWeight scenario_cache ∧
  lru.CheckInvariants scenario_cache = Returns ().
Proof.
  assert (0 < lru.maxWeight scenario_cache) as Hpos by reflexivity.
  exact (conj scenario_cache_reachable
           (conj Hpos
              (CheckInvariants_reachable scenario_cache scenario_cache_reachable Hpos))).
Defined.

Section TooHeavy.
Import lru.
Context {V : Type} `{Weighted V}.
Implicit Types (c : Cache V) (en : entry V) (es : list (entry V)) (key : string).

Lemma totalWeight_recency c :
  totalWeight c = foldr Z.add 0 (map weight_of (recency c)).
Proof.
  unfold totalWeight, recency, GoList.values.
  induction (GoList.cells (entries c)) as [|ce cs IH]; simpl; [done|].
  by rewrite IH.
Qed.

Lemma sum_entries_app es1 es2 :
  foldr Z.add 0 (map weight_of (es1 ++ es2))
  = foldr Z.add 0 (map weight_of es1) + foldr Z.add 0 (map weight_of es2).
Proof. induction es1 as [|en es1 IH]; simpl; lia. Qed.

Lemma sum_entries_nonneg es : 0 <= foldr Z.add 0 (map weight_of es).
Proof.
  induction es as [|en es IH]; simpl; [done|].
  pose proof (weight_of_nonneg en). lia.
Qed.

Lemma sum_entries_filter_le (P : entry V → Prop) `{∀ en, Decision (P en)} es :
  foldr Z.add 0 (map weight_of (filter P es)) <= foldr Z.add 0 (map weight_of es).
Proof.
  induction es as [|en es IH]; simpl; [done|].
  pose proof (weight_of_nonneg en).
  destruct (decide (P en)).
  - rewrite filter_cons_True by done. simpl. lia.
  - rewrite filter_cons_False by done. lia.
Qed.

(** X7.  On a cache constructed by [New] and used through its interface
    whose occupied weight is the sum of the weights (no wrap-around), the
    [Insert] of a value heavier than [maxWeight] (with [maxWeight] plus
    its weight below 2^64) empties the cache: every other entry is
    returned as evicted, least recently used first, then the inserted
    value itself. *)
Theorem Insert_too_heavy key (v : V) c :
  reachable c →
  occupiedWeight c = totalWeight c →
  maxWeight c < Weight v →
  maxWeight c + Weight v < uint64_modulus →
  ∃ c',
    Insert key (Some v) c
      = (Returns (map Value (reverse (filter (λ en, Key en ≠ key) (recency c)))
                    ++ [Some v]), c') ∧
    recency c' = [] ∧
    occupiedWeight c' = 0 ∧
    ∀ k, mapping c' k = None.
Proof.
  intros Hreach Hexact Hheavy Hsmall.
  pose proof (reachable_bounded c Hreach) as Hle.
  apply reachable_wf in Hreach as Hwf.
  destruct (Insert_contents_wf key v c Hwf)
    as (tl & c' & Heq & Hwf' & Hrec & Hmax & Hle' & _).
  assert (recency c' = []) as Hnil.
  { destruct (recency c') as [|en0 r] eqn:Hr; [done|]. exfalso.
    simpl in Hrec. injection Hrec as -> Hrest.
    assert (foldr Z.add 0 (map weight_of (r ++ tl))
            <= foldr Z.add 0 (map weight_of (recency c))) as Hsum
      by (rewrite Hrest; apply sum_entries_filter_le).
    rewrite sum_entries_app in Hsum.
    pose proof (sum_entries_nonneg tl). pose proof (sum_entries_nonneg r).
    rewrite <- totalWeight_recency, <- Hexact in Hsum.
    pose proof (wf_weight c' Hwf') as Hocc.
    rewrite totalWeight_recency, Hr in Hocc. simpl in Hocc.
    unfold weight_of at 1 in Hocc. simpl in Hocc.
    rewrite Z.mod_small in Hocc by (pose proof (Weight_uint64 v) as [? _]; lia).
    lia. }
  exists c'. rewrite Hnil in *. simpl in Hrec. subst tl.
  rewrite Heq, reverse_cons, map_app. simpl.
  split_and!; [done|done| |].
  - rewrite (wf_weight c' Hwf'), totalWeight_recency, Hnil. done.
  - intros k. by rewrite (wf_mapping c' k Hwf'), Hnil.
Qed.

End TooHeavy.

Lemma Insert_too_heavy_witness :
  let v := mkBlob "huge" 11 in
  lru.reachable scenario_cache ∧
  lru.occupiedWeight scenario_cache = lru.totalWeight scenario_cache ∧
  lru.maxWeight scenario_cache < lru.Weight v ∧
  lru.maxWeight scenario_cache + lru.Weight v < uint64_modulus ∧
  ∃ c',
    lru.Insert "A" (Some v) scenario_cache
      = (Returns (map lru.Value
                    (reverse (filter (λ en, lru.Key en ≠ "A")
                                     (lru.recency scenario_cache)))
                    ++ [Some v]), c') ∧
    lru.recency c' = [] ∧
    lru.occupiedWeight c' = 0 ∧
    ∀ k, lru.mapping c' k = None.
Proof.
  intros v.
  assert (lru.occupiedWeight scenario_cache = lru.totalWeight scenario_cache)
    as Hexact by reflexivity.
  assert (lru.maxWeight scenario_cache < lru.Weight v) as Hheavy by reflexivity.
  assert (lru.maxWeight scenario_cache + lru.Weight v < uint64_modulus)
    as Hsmall by reflexivity.
  exact (conj scenario_cache_reachable
          (conj Hexact (conj Hheavy (conj Hsmall
            (Insert_too_heavy "A" v scenario_cache scenario_cache_reachable
               Hexact Hheavy Hsmall))))).
Defined.

(** ** The contents of a cache determine its behaviour *)

Section Indistinguishable.
Import lru observe.
Context {V : Type} `{Weighted V}.
Implicit Types (c : Cache V) (en : entry V) (key : string).

Lemma same_contents_refl c : same_contents c c.
Proof. done. Qed.

Lemma same_contents_mapping c1 c2 key :
  wf c1 → wf c2 → same_contents c1 c2 → mapping c1 key = mapping c2 key.
Proof.
  intros Hwf1 Hwf2 (_ & _ & Hrec). by rewrite !wf_mapping, Hrec.
Qed.

Lemma evictLoop_same fuel : ∀ fuel' evs c1 c2,
  wf c1 → wf c2 → same_contents c1 c2 →
  (length (GoList.cells (entries c1)) < fuel)%nat →
  (length (GoList.cells (entries c2)) < fuel')%nat →
  fst (evictLoop fuel evs c1) = fst (evictLoop fuel' evs c2) ∧
  wf (snd (evictLoop fuel evs c1)) ∧
  wf (snd (evictLoop fuel' evs c2)) ∧
  same_contents (snd (evictLoop fuel evs c1)) (snd (evictLoop fuel' evs c2)).
Proof.
  induction fuel as [|fuel IH]; intros fuel' evs c1 c2 Hwf1 Hwf2 Hsame Hl1 Hl2; [lia|].
  destruct fuel' as [|fuel']; [lia|].
  pose proof Hsame as (Hmax & Hocc & Hrec).
  simpl. rewrite <- Hmax, <- Hocc.
  destruct (maxWeight c1 <? occupiedWeight c1) eqn:Hcmp; [|done].
  apply Z.ltb_lt in Hcmp.
  destruct (GoList.Back (entries c1)) as [[e1 en1]|] eqn:Hb1.
  - apply Back_Some in Hb1 as [cs1 Hcs1].
    destruct (GoList.Back (entries c2)) as [[e2 en2]|] eqn:Hb2.
    + apply Back_Some in Hb2 as [cs2 Hcs2].
      unfold recency, GoList.values in Hrec.
      rewrite Hcs1, Hcs2, !map_app in Hrec. simpl in Hrec.
      apply app_inj_tail in Hrec as [Hcs <-].
      rewrite (evictOne_wf c1 cs1 e1 en1 Hwf1 Hcs1).
      rewrite (evictOne_wf c2 cs2 e2 en1 Hwf2 Hcs2).
      apply IH.
      * by apply (wf_evict c1 cs1 e1 en1).
      * by apply (wf_evict c2 cs2 e2 en1).
      * split_and!; simpl; [done|by rewrite Hocc|done].
      * simpl. rewrite Hcs1, length_app in Hl1. simpl in Hl1. lia.
      * simpl. rewrite Hcs2, length_app in Hl2. simpl in Hl2. lia.
    + apply Back_None in Hb2. unfold recency, GoList.values in Hrec.
      rewrite Hcs1, Hb2, map_app in Hrec. simpl in Hrec.
      by destruct (map snd cs1).
  - apply Back_None in Hb1.
    rewrite (occupied_empty c1 Hwf1 Hb1) in Hcmp.
    pose proof (wf_max c1 Hwf1) as [Hm _]. lia.
Qed.

Lemma Insert_same key value c1 c2 :
  wf c1 → wf c2 → same_contents c1 c2 →
  fst (Insert key value c1) = fst (Insert key value c2) ∧
  wf (snd (Insert key value c1)) ∧
  wf (snd (Insert key value c2)) ∧
  same_contents (snd (Insert key value c1)) (snd (Insert key value c2)).
Proof.
  intros Hwf1 Hwf2 Hsame. destruct value as [v|]; [|done].
  destruct (Insert_written key v c1 Hwf1) as (d1 & -> & Hd1 & Hmax1 & Hrec1 & Hocc1).
  destruct (Insert_written key v c2 Hwf2) as (d2 & -> & Hd2 & Hmax2 & Hrec2 & Hocc2).
  apply evictLoop_same; [done|done| |unfold GoList.Len; lia|unfold GoList.Len; lia].
  pose proof (same_contents_mapping c1 c2 key Hwf1 Hwf2 Hsame) as Hmap.
  destruct Hsame as (Hmax & Hocc & Hrec).
  split_and!; [congruence| |congruence].
  by rewrite Hocc1, Hocc2, Hmap, Hocc.
Qed.

Lemma LookUp_same key c1 c2 :
  wf c1 → wf c2 → same_contents c1 c2 →
  fst (LookUp key c1) = fst (LookUp key c2) ∧
  wf (snd (LookUp key c1)) ∧
  wf (snd (LookUp key c2)) ∧
  same_contents (snd (LookUp key c1)) (snd (LookUp key c2)).
Proof.
  intros Hwf1 Hwf2 Hsame.
  pose proof (same_contents_mapping c1 c2 key Hwf1 Hwf2 Hsame) as Hmap.
  destruct (LookUp_contents_wf key c1 Hwf1) as (Hr1 & Hw1 & Hm1 & Ho1 & Hl1).
  destruct (LookUp_contents_wf key c2 Hwf2) as (Hr2 & Hw2 & Hm2 & Ho2 & Hl2).
  destruct Hsame as (Hmax & Hocc & Hrec).
  split_and!; [congruence|done|done|].
  split_and!; [congruence|congruence|]. by rewrite Hl1, Hl2, Hmap, Hrec.
Qed.

Lemma Erase_same key c1 c2 :
  wf c1 → wf c2 → same_contents c1 c2 →
  fst (Erase key c1) = fst (Erase key c2) ∧
  snd (Erase key c1) = c1 ∧ snd (Erase key c2) = c2.
Proof.
  intros Hwf1 Hwf2 Hsame.
  pose proof (same_contents_mapping c1 c2 key Hwf1 Hwf2 Hsame) as Hmap.
  pose proof (wf_mapping_index c1 key Hwf1) as Hi1.
  pose proof (wf_mapping_index c2 key Hwf2) as Hi2.
  rewrite !Erase_leaves_cache. split; [|done].
  destruct (index c1 !! key) as [e1|] eqn:H1; destruct (index c2 !! key) as [e2|] eqn:H2.
  - rewrite !Erase_present by (rewrite ?H1, ?H2; eauto). done.
  - exfalso. rewrite <- Hmap in Hi2.
    assert (is_Some (@None nat)) as [? ?] by (apply Hi2, Hi1; eauto). done.
  - exfalso. rewrite Hmap in Hi1.
    assert (is_Some (@None nat)) as [? ?] by (apply Hi1, Hi2; eauto). done.
  - by rewrite !Erase_absent.
Qed.

Lemma step_same (o : op V) c1 c2 :
  wf c1 → wf c2 → same_contents c1 c2 →
  answer_of c1 o = answer_of c2 o ∧
  wf (step c1 o) ∧ wf (step c2 o) ∧
  same_contents (step c1 o) (step c2 o).
Proof.
  intros Hwf1 Hwf2 Hsame. destruct o as [key value|key|key]; simpl.
  - destruct (Insert_same key value c1 c2 Hwf1 Hwf2 Hsame) as (-> & ? & ? & ?). done.
  - destruct (Erase_same key c1 c2 Hwf1 Hwf2 Hsame) as (-> & -> & ->). done.
  - destruct (LookUp_same key c1 c2 Hwf1 Hwf2 Hsame) as (-> & ? & ? & ?). done.
Qed.

Lemma answers_same ops : ∀ c1 c2,
  wf c1 → wf c2 → same_contents c1 c2 →
  answers ops c1 = answers ops c2 ∧
  same_contents (run ops c1) (run ops c2).
Proof.
  induction ops as [|o ops IH]; intros c1 c2 Hwf1 Hwf2 Hsame; [done|].
  destruct (step_same o c1 c2 Hwf1 Hwf2 Hsame) as (Hans & Hw1 & Hw2 & Hs).
  destruct (IH _ _ Hw1 Hw2 Hs) as [Hrest Hrun].
  simpl. rewrite Hans, Hrest. done.
Qed.

(** X8.  The index is redundant: two caches constructed by [New] and used
    through the interface that have the same [maxWeight], the same
    occupied weight and the same entries in the same recency order cannot
    be told apart.  Every sequence of operations ends the same way on
    both, call by call (same values returned, same values evicted, same
    panics), and leaves them with the same contents again. *)
Theorem contents_determine_answers (ops : list (op V)) c1 c2 :
  reachable c1 → reachable c2 → same_contents c1 c2 →
  answers ops c1 = answers ops c2 ∧
  same_contents (run ops c1) (run ops c2).
Proof.
  intros Hr1 Hr2. apply answers_same; by apply reachable_wf.
Qed.

End Indistinguishable.

Lemma contents_determine_answers_witness :
  let c1 := scenario_cache in
  let c2 := lru.run [lru.OpInsert "B" (Some (mkBlob "old" 1));
                     lru.OpInsert "A" (Some (mkBlob "a" 4));
                     lru.OpInsert "B" (Some (mkBlob "b" 4))]
                    (lru.mkCache 10 0 GoList.empty ∅) in
  let ops := [lru.OpLookUp "A";
              lru.OpInsert "C" (Some (mkBlob "c" 4));
              lru.OpErase "C";
              lru.OpLookUp "B"] in
  lru.reachable c1 ∧ lru.reachable c2 ∧ observe.same_contents c1 c2 ∧
  lru.index c1 ≠ lru.index c2 ∧
  observe.answers ops c1 = observe.answers ops c2 ∧
  observe.same_contents (lru.run ops c1) (lru.run ops c2).
Proof.
  intros c1 c2 ops.
  assert (lru.reachable c2) as Hr2.
  { eexists 10, _. split; [|reflexivity]. split; [discriminate | reflexivity]. }
  assert (observe.same_contents c1 c2) as Hsame by (vm_compute; done).
  assert (lru.index c1 ≠ lru.index c2) as Hindex.
  { intros Heq. assert (lru.index c1 !! "A" = lru.index c2 !! "A") as Hl
      by (by rewrite Heq). vm_compute in Hl. discriminate. }
  exact (conj scenario_cache_reachable
          (conj Hr2 (conj Hsame (conj Hindex
            (contents_determine_answers ops c1 c2
               scenario_cache_reachable Hr2 Hsame))))).
Defined.

(** ** A restored cache *)

Section Restored.
Import lru observe.
Context {V : Type} `{Weighted V}.
Context {gob_uint64 : Gob Z} {gob_entries : Gob (list (entry V))}.
Implicit Types (c : Cache V).

Lemma GobDecode_GobEncode_wf c b receiver :
  gob_roundtrip Z → gob_roundtrip (list (entry V)) →
  wf c →
  GobEncode c = (b, None) →
  ∃ c',
    GobDecode b receiver = (Returns None, c') ∧
    wf c' ∧ same_contents c' c.
Proof.
  intros Hrt64 Hrtes Hwf. unfold GobEncode.
  destruct (gob_encode (maxWeight c)) as [err|b1] eqn:H1; [done|].
  destruct (gob_encode (occupiedWeight c)) as [err|b2] eqn:H2; [done|].
  destruct (gob_encode (GoList.values (entries c))) as [err|b3] eqn:H3; [done|].
  intros [= <-]. unfold GobDecode.
  rewrite (Hrt64 _ _ _ H1), (Hrt64 _ _ _ H2). simpl.
  rewrite <- (app_nil_r b3), (Hrtes _ _ _ H3).
  destruct (foldl_store (GoList.values (entries c))
              (mkCache (maxWeight c) 0 GoList.empty ∅) (indexed_empty _))
    as (Hix' & Hrec & Hmax & Hocc).
  { simpl. by apply indexed_keys_NoDup, wf_indexed. }
  eexists. split; [reflexivity|]. simpl in Hrec.
  set (cf := foldl store _ _) in *.
  assert (recency cf = recency c) as Hrec' by exact Hrec.
  destruct Hix' as (Hnd & Hnext & Hidx).
  split; [split|]; simpl.
  - rewrite Hmax. simpl. apply Hwf.
  - done.
  - done.
  - done.
  - intros ce Hin.
    assert (snd ce ∈ recency c) as Hin'.
    { rewrite <- Hrec'. unfold recency, GoList.values. by apply list_elem_of_fmap_2. }
    unfold recency, GoList.values in Hin'.
    apply list_elem_of_fmap in Hin' as (ce' & -> & Hin').
    by apply (wf_nonnil c Hwf).
  - rewrite (wf_weight c Hwf). f_equal.
    rewrite (totalWeight_recency c), <- Hrec'.
    unfold totalWeight. simpl. fold (totalWeight cf).
    by rewrite (totalWeight_recency cf).
  - split_and!; simpl; [by rewrite Hmax|done|done].
Qed.

(** X9.  A cache constructed by [New], used through its interface, encoded
    by [GobEncode] and decoded again (gob transmitting uint64 numbers and
    entry slices faithfully) cannot be told apart from the original: every
    sequence of operations ends the same way on both, call by call, and
    [CheckInvariants] returns on the restored cache when [maxWeight] is
    positive. *)
Theorem restored_cache_indistinguishable c (b : list Byte.byte) (receiver : Cache V)
    (ops : list (op V)) :
  gob_roundtrip Z → gob_roundtrip (list (entry V)) →
  reachable c →
  GobEncode c = (b, None) →
  ∃ c',
    GobDecode b receiver = (Returns None, c') ∧
    answers ops c' = answers ops c ∧
    same_contents (run ops c') (run ops c) ∧
    (0 < maxWeight c → CheckInvariants c' = Returns ()).
Proof.
  intros Hrt64 Hrtes Hreach Henc.
  pose proof (reachable_bounded c Hreach) as Hle.
  apply reachable_wf in Hreach as Hwf.
  destruct (GobDecode_GobEncode_wf c b receiver Hrt64 Hrtes Hwf Henc)
    as (c' & Hdec & Hwf' & Hsame).
  exists c'. split; [done|].
  destruct (answers_same ops c' c Hwf' Hwf Hsame) as [Hans Hrun].
  split_and!; [done|done|].
  intros Hpos. destruct Hsame as (Hmax & Hocc & _).
  apply CheckInvariants_wf; [done|lia|lia].
Qed.

End Restored.

Lemma restored_cache_indistinguishable_witness :
  let c := scenario_cache in
  let b := fst (lru.GobEncode c) in
  let receiver := lru.mkCache (V:=blob) 0 0 GoList.empty ∅ in
  let ops := [lru.OpLookUp "A";
              lru.OpInsert "C" (Some (mkBlob "c" 4));
              lru.OpErase "C";
              lru.OpLookUp "B"] in
  gob_roundtrip Z ∧ gob_roundtrip (list (lru.entry blob)) ∧
  lru.reachable c ∧
  lru.GobEncode c = (b, None) ∧
  ∃ c',
    lru.GobDecode b receiver = (Returns None, c') ∧
    observe.answers ops c' = observe.answers ops c ∧
    observe.same_contents (lru.run ops c') (lru.run ops c) ∧
    (0 < lru.maxWeight c → lru.CheckInvariants c' = Returns ()).
Proof.
  intros c b receiver ops.
  assert (lru.GobEncode c = (b, None)) as Henc by (vm_compute; reflexivity).
  exact (conj uint64_Gob_roundtrip
          (conj entries_Gob_roundtrip
            (conj scenario_cache_reachable
              (conj Henc
                (restored_cache_indistinguishable c b receiver ops
                   uint64_Gob_roundtrip entries_Gob_roundtrip
                   scenario_cache_reachable Henc))))).
Defined.

(* ================================================================= *)
(** * Further properties of the download job *)

Section JobInvariants.
Import downloader.
Implicit Types (st : State) (sub : jobSubscriber) (kept rest : list jobSubscriber)
  (cs : channel.Chans JobStatus) (status : JobStatus).

(** The loop of [notifySubscribers] when no subscriber is to be fired. *)
Lemma notifyLoop_none status rest : ∀ kept cs,
  (∀ sub, sub ∈ rest → ¬ fires status sub) →
  notifyLoop status kept rest cs = (Returns (), kept ++ rest, cs).
Proof.
  induction rest as [|s rest IH]; intros kept cs Hnone; simpl.
  - by rewrite app_nil_r.
  - destruct (fires status s) eqn:Hf.
    + exfalso. apply (Hnone s); [left|]. by rewrite Hf.
    + rewrite IH by (intros sub Hin; apply Hnone; by right).
      by rewrite <- app_assoc.
Qed.

(** X11.  [notifySubscribers] is idempotent: when every subscriber in the
    list waits on a channel of its own, a second [notifySubscribers]
    right after the first returns and changes nothing, no subscriber is
    notified twice. *)
Theorem notifySubscribers_idempotent st :
  subscribers_wait st →
  notifySubscribers (snd (notifySubscribers st))
    = (Returns (), snd (notifySubscribers st)).
Proof.
  intros Hwait.
  destruct (notifySubscribers_spec st Hwait)
    as (st' & Heq & Hst & Hcache & Hsubs & _).
  rewrite Heq. simpl. unfold notifySubscribers at 1.
  rewrite notifyLoop_none.
  - by destruct st' as [[] ? ?].
  - intros sub Hin. rewrite Hsubs in Hin.
    apply list_elem_of_filter in Hin as [Hnf _]. by rewrite Hst.
Qed.


(** X10.  Across every sequence of calls on a new job, every subscriber in
    the list waits on an open, empty channel (capacity 1) that no other
    subscriber in the list has: a subscriber that has been notified is no
    longer in the list, and a channel is never handed out twice. *)
Theorem job_subscribers_wait (P : Imports)
    (object : option gcs.MinObject) (bucket : option gcs.Bucket)
    (cache : option (lru.Cache data.FileInfo)) (size : Z) (spec : data.FileSpec)
    (cs : channel.Chans JobStatus) (calls : list call) :
  let st := run P calls (snd (NewJob object bucket cache size spec cs)) in
  NoDup (map notificationC (subscribers (job st))) ∧
  ∀ sub, sub ∈ subscribers (job st) →
         channel.chan_of (chans st) !! notificationC sub
           = Some (channel.mkChan 1 [] false).
Proof.
  apply run_subscribers_wait, NewJob_subscribers_wait.
Qed.


End JobInvariants.

Lemma notifySubscribers_idempotent_witness :
  downloader.subscribers_wait scenario_downloading ∧
  downloader.notifySubscribers (snd (downloader.notifySubscribers scenario_downloading))
    = (Returns (), snd (downloader.notifySubscribers scenario_downloading)).
Proof.
  exact (conj scenario_downloading_waits
           (notifySubscribers_idempotent scenario_downloading
              scenario_downloading_waits)).
Defined.


Section JobChannels.
Import downloader.
Implicit Types (st : State) (sub : jobSubscriber).

Lemma notifySubscribers_accounted st :
  subscribers_wait st → jobcalls.accounted st →
  jobcalls.accounted (snd (notifySubscribers st)).
Proof.
  intros [Hnd Hwait] Hacc. unfold notifySubscribers.
  destruct (notifyLoop_spec (status (job st)) (subscribers (job st)) [] (chans st) Hnd Hwait)
    as (cs' & -> & Hfired & Hkeep & Hsame & _).
  intros c ch. simpl. intros Hc.
  destruct (decide (c ∈ map notificationC (subscribers (job st)))) as [Hin|Hnotin].
  - apply list_elem_of_fmap in Hin as (sub & -> & Hin).
    destruct (fires (status (job st)) sub) eqn:Hf.
    + right. exists (status (job st)).
      specialize (Hfired sub Hin). rewrite Hf in Hfired.
      unfold fired in Hfired. rewrite Hfired in Hc by done. congruence.
    + left. assert (¬ fires (status (job st)) sub) as Hnf by (rewrite Hf; simpl; tauto).
      specialize (Hkeep sub Hin Hnf). unfold waiting in Hkeep.
      split; [congruence|]. apply list_elem_of_fmap_2.
      by apply list_elem_of_filter.
  - rewrite (Hsame c Hnotin) in Hc. destruct (Hacc c ch Hc) as [[_ Hin]|Hdone].
    + done.
    + by right.
Qed.

Lemma step_accounted P st (k : call) :
  subscribers_wait st → jobcalls.accounted st → jobcalls.accounted (step P st k).
Proof.
  intros Hwait Hacc. destruct k; cbn [step]; try done.
  - unfold failWhileDownloading. by apply notifySubscribers_accounted.
  - unfold subscribe, channel.make. simpl. intros c ch. simpl.
    rewrite lookup_insert. case_decide as Hc.
    + intros [= <-]. left. split; [done|]. subst c.
      rewrite map_app. apply elem_of_app. right. left.
    + intros Hl. destruct (Hacc c ch Hl) as [[-> Hin]|Hdone]; [left|by right].
      split; [done|]. rewrite map_app. apply elem_of_app. by left.
  - by apply notifySubscribers_accounted.
  - destruct (updateFileInfoCache_keeps_job P st) as [Hjob Hchans].
    unfold jobcalls.accounted. by rewrite Hjob, Hchans.
Qed.

Lemma run_accounted P calls st :
  subscribers_wait st → jobcalls.accounted st → jobcalls.accounted (run P calls st).
Proof.
  revert st. induction calls as [|k calls IH]; intros st Hw Hacc; [done|].
  simpl. fold (run P calls (step P st k)).
  apply IH; [by apply step_subscribers_wait|by apply step_accounted].
Qed.

(** X13.  Across every sequence of calls on a new job that starts without
    channels, every channel the job has made is accounted for: either it
    is open and empty and its subscriber is still in the list, or it
    holds exactly one status and is closed.  No subscriber leaves the
    list without having been notified, and none is notified twice. *)
Theorem job_channels_accounted (P : Imports)
    (object : option gcs.MinObject) (bucket : option gcs.Bucket)
    (cache : option (lru.Cache data.FileInfo)) (size : Z) (spec : data.FileSpec)
    (calls : list call) :
  let st := run P calls
              (snd (NewJob object bucket cache size spec (channel.mkChans ∅ []))) in
  ∀ c ch,
    channel.chan_of (chans st) !! c = Some ch →
    (ch = channel.mkChan 1 [] false ∧
     c ∈ map notificationC (subscribers (job st))) ∨
    (∃ status, ch = channel.mkChan 1 [status] true).
Proof.
  apply run_accounted; [apply NewJob_subscribers_wait|].
  intros c ch. simpl. by rewrite lookup_empty.
Qed.

End JobChannels.

Lemma job_channels_accounted_example :
  let st := downloader.run scenario_imports
              [downloader.CallSubscribe 10;
               downloader.CallFailWhileDownloading (Some "read error");
               downloader.CallSubscribe 20]
              scenario_job in
  map (λ c, channel.chan_of (downloader.chans st) !! c) [0; 1; 2]%nat
    = [Some (channel.mkChan 1
               [downloader.mkJobStatus downloader.FAILED (Some "read error") 0] true);
       Some (channel.mkChan 1 [] false);
       None] ∧
  downloader.subscribers (downloader.job st) = [downloader.mkJobSubscriber 1 20].
Proof. vm_compute. done. Qed.

Lemma job_channels_accounted_witness :
  let calls := [downloader.CallSubscribe 10;
                downloader.CallFailWhileDownloading (Some "read error");
                downloader.CallSubscribe 20] in
  let st := downloader.run scenario_imports calls scenario_job in
  let ch := channel.mkChan 1
              [downloader.mkJobStatus downloader.FAILED (Some "read error") 0] true in
  channel.chan_of (downloader.chans st) !! 0%nat = Some ch ∧
  ((ch = channel.mkChan 1 [] false ∧
    0%nat ∈ map downloader.notificationC (downloader.subscribers (downloader.job st))) ∨
   (∃ status, ch = channel.mkChan 1 [status] true)).
Proof.
  intros calls st ch.
  assert (channel.chan_of (downloader.chans st) !! 0%nat = Some ch) as Hch
    by (vm_compute; reflexivity).
  exact (conj Hch
           (job_channels_accounted scenario_imports
              (Some (gcs.mkMinObject "dir/file.txt" 2000000 7))
              (Some (gcs.mkBucket "bucket"))
              (Some (lru.mkCache 1000 0 GoList.empty ∅)) 200
              (data.mkFileSpec "/cache/bucket/dir/file.txt") calls 0%nat ch Hch)).
Defined.

Lemma job_subscribers_wait_witness :
  let calls := [downloader.CallSubscribe 10;
                downloader.CallFailWhileDownloading (Some "read error");
                downloader.CallSubscribe 20] in
  let st := downloader.run scenario_imports calls scenario_job in
  downloader.subscribers (downloader.job st) = [downloader.mkJobSubscriber 1 20] ∧
  channel.chan_of (downloader.chans st) !! 1%nat = Some (channel.mkChan 1 [] false).
Proof.
  intros calls st.
  assert (downloader.subscribers (downloader.job st)
            = [downloader.mkJobSubscriber 1 20]) as Hsubs
    by (vm_compute; reflexivity).
  split; [exact Hsubs|].
  refine (proj2 (job_subscribers_wait scenario_imports
                   (Some (gcs.mkMinObject "dir/file.txt" 2000000 7))
                   (Some (gcs.mkBucket "bucket"))
                   (Some (lru.mkCache 1000 0 GoList.empty ∅)) 200
                   (data.mkFileSpec "/cache/bucket/dir/file.txt")
                   (channel.mkChans ∅ []) calls)
                (downloader.mkJobSubscriber 1 20) _).
  change (downloader.mkJobSubscriber 1 20
            ∈ downloader.subscribers (downloader.job st)).
  rewrite Hsubs. apply list_elem_of_here.
Defined.

Section JobComposition.
Import downloader.
Implicit Types (st : State) (sub : jobSubscriber).

(** X14.  [subscribe] followed by [notifySubscribers], on a job whose
    subscribers wait on channels of their own: the channel [subscribe]
    returns did not exist before; after the notification it holds the
    status of the job and is closed when the status is FAILED or
    CANCELLED or the subscribed offset is at most the offset of the
    status, and otherwise it is open and empty and the new subscriber is
    the last of the list. *)
Theorem subscribe_then_notify (subscribedOffset : Z) st :
  subscribers_wait st →
  let sub1 := subscribe subscribedOffset st in
  let st2 := snd (notifySubscribers (snd sub1)) in
  ∃ c,
    fst sub1 = Returns c ∧
    channel.chan_of (chans st) !! c = None ∧
    fst (notifySubscribers (snd sub1)) = Returns () ∧
    if fires (status (job st)) (mkJobSubscriber c subscribedOffset)
    then channel.chan_of (chans st2) !! c
           = Some (channel.mkChan 1 [status (job st)] true) ∧
         mkJobSubscriber c subscribedOffset ∉ subscribers (job st2)
    else channel.chan_of (chans st2) !! c = Some (channel.mkChan 1 [] false) ∧
         last (subscribers (job st2)) = Some (mkJobSubscriber c subscribedOffset).
Proof.
  intros Hwait sub1 st2.
  pose proof (subscribe_subscribers_wait subscribedOffset st Hwait) as Hwait1.
  fold sub1 in Hwait1.
  set (c := fresh (dom (channel.chan_of (chans st)))).
  set (new := mkJobSubscriber c subscribedOffset).
  assert (fst sub1 = Returns c) as Hc by done.
  assert (subscribers (job (snd sub1)) = subscribers (job st) ++ [new]) as Hsubs1 by done.
  assert (status (job (snd sub1)) = status (job st)) as Hst1 by done.
  exists c. split; [done|]. split; [apply not_elem_of_dom, is_fresh|].
  destruct (notifySubscribers_spec (snd sub1) Hwait1)
    as (st' & Heq & _ & _ & Hsubs & Hfired & Hkeep & _).
  unfold st2. rewrite Heq. simpl. split; [done|].
  rewrite Hst1, Hsubs1 in *.
  assert (new ∈ subscribers (job st) ++ [new]) as Hin
    by (apply elem_of_app; right; left).
  fold new. destruct (fires (status (job st)) new) eqn:Hf.
  - split.
    + apply (Hfired new Hin). by rewrite Hf.
    + rewrite Hsubs. rewrite list_elem_of_filter. rewrite Hf. simpl. tauto.
  - assert (¬ fires (status (job st)) new) as Hnf by (rewrite Hf; simpl; tauto).
    split.
    + by apply (Hkeep new Hin).
    + rewrite Hsubs, filter_app, filter_cons_True, filter_nil by done.
      apply last_snoc.
Qed.

End JobComposition.

Lemma subscribe_then_notify_witness :
  let st := scenario_downloading in
  let sub1 := downloader.subscribe 20 st in
  let st2 := snd (downloader.notifySubscribers (snd sub1)) in
  downloader.subscribers_wait st ∧
  ∃ c,
    fst sub1 = Returns c ∧
    channel.chan_of (downloader.chans st) !! c = None ∧
    fst (downloader.notifySubscribers (snd sub1)) = Returns () ∧
    if downloader.fires (downloader.status (downloader.job st))
         (downloader.mkJobSubscriber c 20)
    then channel.chan_of (downloader.chans st2) !! c
           = Some (channel.mkChan 1 [downloader.status (downloader.job st)] true) ∧
         downloader.mkJobSubscriber c 20 ∉ downloader.subscribers (downloader.job st2)
    else channel.chan_of (downloader.chans st2) !! c
           = Some (channel.mkChan 1 [] false) ∧
         last (downloader.subscribers (downloader.job st2))
           = Some (downloader.mkJobSubscriber c 20).
Proof.
  exact (conj scenario_downloading_waits
           (subscribe_then_notify 20 scenario_downloading scenario_downloading_waits)).
Defined.

(* ================================================================= *)
(** * Progress writes to the file info cache *)

Section MostRecent.
Import lru.
Context {V : Type} `{Weighted V}.
Implicit Types (c : Cache V) (en : entry V) (key k : string).




End MostRecent.






(** The same write and a read, evaluated: the write returns a nil error
    and leaves an empty cache; the read returns the file info and leaves
    both entries, the one read first. *)
Example progress_write_and_read :
  let st := scenario_progress 1001 in
  let name := "bucket/dir/file.txt" in
  fst (downloader.updateFileInfoCache scenario_imports st) = Returns None ∧
  (lru.recency <$> downloader.fileInfoCache
                     (snd (downloader.updateFileInfoCache scenario_imports st)))
    = Some [] ∧
  fst (lru.LookUp name scenario_fileInfoCache) = Returns (Some (scenario_fileInfo 10)) ∧
  map lru.Key (lru.recency (snd (lru.LookUp name scenario_fileInfoCache)))
    = [name; "bucket/other.txt"].
Proof. vm_compute. done. Qed.

(* ================================================================= *)
(** * Properties of inode names *)

Section InodeNames.
Import inode.
Implicit Types (name parentName : Name) (s t dirName fileName : string).

Lemma append_cons (a : Ascii.ascii) s t : String a s +:+ t = String a (s +:+ t).
Proof. reflexivity. Qed.

Lemma append_empty_r s : s +:+ "" = s.
Proof. induction s as [|a s IH]; [done|]. by rewrite append_cons, IH. Qed.

Lemma append_assoc s t u : (s +:+ t) +:+ u = s +:+ (t +:+ u).
Proof. induction s as [|a s IH]; [done|]. by rewrite !append_cons, IH. Qed.

Lemma last_byte_app s t : t ≠ "" → last_byte (s +:+ t) = last_byte t.
Proof.
  intros Ht. induction s as [|a s IH]; [done|].
  rewrite append_cons. cbn [last_byte]. rewrite IH.
  destruct (s +:+ t) eqn:Hst; [|done].
  exfalso. destruct s; [by apply Ht|by rewrite append_cons in Hst].
Qed.

Lemma ends_with_slash_app s t :
  t ≠ "" → ends_with_slash (s +:+ t) = ends_with_slash t.
Proof. intros Ht. unfold ends_with_slash. by rewrite last_byte_app. Qed.

Lemma ends_with_slash_slash s : ends_with_slash (s +:+ "/") = true.
Proof. by rewrite ends_with_slash_app. Qed.

Lemma ends_with_slash_with_slash dirName :
  ends_with_slash (with_slash dirName) = true.
Proof.
  unfold with_slash. destruct (ends_with_slash dirName) eqn:Hd; [done|].
  apply ends_with_slash_slash.
Qed.

Lemma with_slash_nonempty dirName : with_slash dirName ≠ "".
Proof.
  unfold with_slash. destruct (ends_with_slash dirName) eqn:Hd.
  - by destruct dirName.
  - by destruct dirName.
Qed.

Lemma IsDir_ends name : ends_with_slash (objectName name) = true → IsDir name = true.
Proof. unfold IsDir. intros ->. by rewrite orb_true_r. Qed.

Lemma IsFile_IsDir name : IsFile name = negb (IsDir name).
Proof. done. Qed.

Lemma NewDirName_dir parentName dirName :
  IsDir parentName = true → dirName ≠ "" →
  NewDirName parentName dirName
    = Returns (mkName (objectName parentName +:+ with_slash dirName)).
Proof.
  intros Hdir Hne. unfold NewDirName, IsFile. rewrite Hdir. simpl.
  rewrite bool_decide_eq_false_2 by done. unfold with_slash.
  by destruct (ends_with_slash dirName).
Qed.

(** X16.  [NewDirName] under a directory, with a name that is not empty,
    returns a name that is a directory and not a file; its object name is
    the object name of the parent followed by the directory name with
    exactly one slash added when it does not end in one, so a name and the
    same name followed by a slash give the same inode name. *)
Theorem NewDirName_is_directory parentName dirName :
  IsDir parentName = true → dirName ≠ "" →
  ∃ child,
    NewDirName parentName dirName = Returns child ∧
    IsDir child = true ∧ IsFile child = false ∧
    GcsObjectName child
      = GcsObjectName parentName +:+
        (if ends_with_slash dirName then dirName else dirName +:+ "/") ∧
    (ends_with_slash dirName = false →
     NewDirName parentName (dirName +:+ "/") = Returns child).
Proof.
  intros Hdir Hne. rewrite (NewDirName_dir _ _ Hdir Hne).
  eexists. split; [reflexivity|].
  assert (IsDir (mkName (objectName parentName +:+ with_slash dirName)) = true) as Hd.
  { apply IsDir_ends. simpl.
    rewrite ends_with_slash_app by apply with_slash_nonempty.
    apply ends_with_slash_with_slash. }
  split_and!; [done|by rewrite IsFile_IsDir, Hd|done|].
  intros Hno. rewrite NewDirName_dir; [|done|by destruct dirName].
  unfold with_slash. by rewrite ends_with_slash_slash, Hno.
Qed.

(** X17.  [NewFileName] under a directory, with a name that is not empty,
    returns the name whose object name is that of the parent followed by
    the file name, unchanged.  The result is a file exactly when the file
    name does not end in a slash: [NewFileName] does not reject a name
    that ends in one, and the name it returns for it is a directory. *)
Theorem NewFileName_is_file parentName fileName :
  IsDir parentName = true → fileName ≠ "" →
  ∃ child,
    NewFileName parentName fileName = Returns child ∧
    GcsObjectName child = GcsObjectName parentName +:+ fileName ∧
    LocalName child = GcsObjectName child ∧
    IsFile child = negb (ends_with_slash fileName) ∧
    IsDir child = ends_with_slash fileName.
Proof.
  intros Hdir Hne. unfold NewFileName, IsFile at 1. rewrite Hdir. simpl.
  rewrite bool_decide_eq_false_2 by done.
  eexists. split; [reflexivity|].
  assert (IsDir (mkName (objectName parentName +:+ fileName))
          = ends_with_slash fileName) as Hd.
  { unfold IsDir. simpl. rewrite ends_with_slash_app by done.
    rewrite bool_decide_eq_false_2; [done|].
    destruct (objectName parentName); [done|done]. }
  split_and!; [done|done|by rewrite IsFile_IsDir, Hd|done].
Qed.

Lemma descend_dir dirNames : ∀ name,
  IsDir name = true → Forall (λ d, d ≠ "") dirNames →
  ∃ leaf,
    descend name dirNames = Returns leaf ∧
    IsDir leaf = true ∧
    objectName leaf
      = objectName name +:+ foldr (λ d acc, with_slash d +:+ acc) "" dirNames.
Proof.
  induction dirNames as [|d dirNames IH]; intros name Hdir Hall; simpl.
  - exists name. split_and!; [done|done|]. by rewrite append_empty_r.
  - apply Forall_cons in Hall as [Hd Hall].
    rewrite (NewDirName_dir _ _ Hdir Hd).
    destruct (IH (mkName (objectName name +:+ with_slash d))) as (leaf & -> & Hleaf & Hobj); [|done|].
    { apply IsDir_ends. simpl.
      rewrite ends_with_slash_app by apply with_slash_nonempty.
      apply ends_with_slash_with_slash. }
    exists leaf. split_and!; [done|done|]. rewrite Hobj. simpl.
    apply append_assoc.
Qed.

(** X19.  Every name reached from the root of the bucket through
    directories with names that are not empty is a directory: no
    [NewDirName] on the way panics, the object name is the directory names
    one after the other, each with its slash, and a file with a name that
    is not empty can be created under it. *)
Theorem descend_from_root dirNames fileName :
  Forall (λ d, d ≠ "") dirNames → fileName ≠ "" →
  ∃ leaf,
    descend NewRootName dirNames = Returns leaf ∧
    IsDir leaf = true ∧
    GcsObjectName leaf = foldr (λ d acc, with_slash d +:+ acc) "" dirNames ∧
    NewFileName leaf fileName = Returns (mkName (GcsObjectName leaf +:+ fileName)).
Proof.
  intros Hall Hf.
  destruct (descend_dir dirNames NewRootName) as (leaf & Hd & Hleaf & Hobj); [done|done|].
  exists leaf. split_and!; [done|done|done|].
  unfold NewFileName, IsFile. rewrite Hleaf. simpl.
  by rewrite bool_decide_eq_false_2.
Qed.

End InodeNames.

Lemma NewDirName_is_directory_witness :
  let parentName := inode.mkName "explicitDir/" in
  inode.IsDir parentName = true ∧ "sub" ≠ "" ∧
  ∃ child,
    inode.NewDirName parentName "sub" = Returns child ∧
    inode.IsDir child = true ∧ inode.IsFile child = false ∧
    inode.GcsObjectName child
      = inode.GcsObjectName parentName +:+
        (if inode.ends_with_slash "sub" then "sub" else "sub" +:+ "/") ∧
    (inode.ends_with_slash "sub" = false →
     inode.NewDirName parentName ("sub" +:+ "/") = Returns child).
Proof.
  intros parentName.
  assert (inode.IsDir parentName = true) as Hdir by reflexivity.
  assert ("sub" ≠ "") as Hne by discriminate.
  exact (conj Hdir (conj Hne (NewDirName_is_directory parentName "sub" Hdir Hne))).
Defined.

Lemma NewFileName_is_file_witness :
  let parentName := inode.mkName "explicitDir/" in
  inode.IsDir parentName = true ∧ "file1.txt" ≠ "" ∧
  ∃ child,
    inode.NewFileName parentName "file1.txt" = Returns child ∧
    inode.GcsObjectName child = inode.GcsObjectName parentName +:+ "file1.txt" ∧
    inode.LocalName child = inode.GcsObjectName child ∧
    inode.IsFile child = negb (inode.ends_with_slash "file1.txt") ∧
    inode.IsDir child = inode.ends_with_slash "file1.txt".
Proof.
  intros parentName.
  assert (inode.IsDir parentName = true) as Hdir by reflexivity.
  assert ("file1.txt" ≠ "") as Hne by discriminate.
  exact (conj Hdir (conj Hne (NewFileName_is_file parentName "file1.txt" Hdir Hne))).
Defined.

Lemma descend_from_root_witness :
  let dirNames := ["explicitDir"; "nested/"] in
  Forall (λ d, d ≠ "") dirNames ∧ "file1.txt" ≠ "" ∧
  ∃ leaf,
    inode.descend inode.NewRootName dirNames = Returns leaf ∧
    inode.IsDir leaf = true ∧
    inode.GcsObjectName leaf
      = foldr (λ d acc, inode.with_slash d +:+ acc) "" dirNames ∧
    inode.NewFileName leaf "file1.txt"
      = Returns (inode.mkName (inode.GcsObjectName leaf +:+ "file1.txt")).
Proof.
  intros dirNames.
  assert (Forall (λ d, d ≠ "") dirNames) as Hall by (repeat constructor; discriminate).
  assert ("file1.txt" ≠ "") as Hne by discriminate.
  exact (conj Hall (conj Hne (descend_from_root dirNames "file1.txt" Hall Hne))).
Defined.

(** The names of the scenario, evaluated. *)
Example inode_names_examples :
  inode.descend inode.NewRootName ["explicitDir"; "nested/"]
    = Returns (inode.mkName "explicitDir/nested/") ∧
  inode.NewFileName (inode.mkName "explicitDir/") "file1.txt"
    = Returns (inode.mkName "explicitDir/file1.txt") ∧
  inode.IsFile (inode.mkName "explicitDir/file1.txt") = true ∧
  inode.NewDirName (inode.mkName "explicitDir/file1.txt") "sub"
    = Panics "Inode 'explicitDir/file1.txt' cannot have child subdirectory 'sub'".
Proof. vm_compute. done. Qed.

(* ================================================================= *)
(** * The cache returns what was inserted last *)

Section Coherence.
Import lru observe.
Context {V : Type} `{Weighted V}.
Implicit Types (c : Cache V) (en : entry V) (es : list (entry V)) (key k : string).

Lemma valueIn_prefix k es1 es2 :
  valueIn k es1 = None ∨ valueIn k es1 = valueIn k (es1 ++ es2).
Proof.
  induction es1 as [|en es1 IH]; simpl; [by left|].
  destruct (decide (Key en = k)); [by right|done].
Qed.

Lemma mapping_last_inserted (m : Z) (ops : list (op V)) key :
  is_uint64 m →
  mapping (run ops (mkCache m 0 GoList.empty ∅)) key = None ∨
  mapping (run ops (mkCache m 0 GoList.empty ∅)) key = last_inserted key ops.
Proof.
  intros Hm. induction ops as [|o ops IH] using rev_ind; [by left|].
  rewrite run_app. unfold last_inserted. rewrite foldl_app. simpl.
  fold (last_inserted key ops).
  set (c := run ops (mkCache m 0 GoList.empty ∅)) in *.
  assert (wf c) as Hwf by (apply reachable_wf; by exists m, ops).
  destruct o as [key' [v|]|key'|key']; unfold run; cbn [foldl step].
  - destruct (Insert_contents_wf key' v c Hwf)
      as (tl & c' & -> & Hwf' & Hrec & _). cbn [snd].
    rewrite (wf_mapping c' key Hwf').
    destruct (valueIn_prefix key (recency c') tl) as [-> | ->]; [by left|].
    rewrite Hrec. simpl. destruct (decide (key' = key)) as [->|Hne]; [by right|].
    rewrite valueIn_filter_ne by done. by rewrite <- (wf_mapping c key Hwf).
  - done.
  - by rewrite Erase_leaves_cache.
  - destruct (LookUp_contents_wf key' c Hwf) as (_ & Hwf' & _ & _ & Hrec).
    rewrite (wf_mapping _ key Hwf'), Hrec.
    rewrite (wf_mapping c key Hwf) in IH.
    destruct (mapping c key') as [v|] eqn:Hmap; [|done].
    simpl. destruct (decide (key' = key)) as [->|Hne].
    + rewrite (wf_mapping c key Hwf) in Hmap. rewrite Hmap in IH. done.
    + by rewrite valueIn_filter_ne.
Qed.

(** X20.  A cache constructed by [New] and used through its interface is
    coherent: [LookUp] of a key returns either nil or the value of the
    last [Insert] under that key, never an older value and never a value
    inserted under another key.  In particular it returns nil for a key
    under which nothing was inserted. *)
Theorem LookUp_returns_last_inserted (m : Z) (ops : list (op V)) key :
  is_uint64 m →
  let c := run ops (mkCache m 0 GoList.empty ∅) in
  fst (LookUp key c) = Returns None ∨
  fst (LookUp key c) = Returns (last_inserted key ops).
Proof.
  intros Hm c.
  assert (wf c) as Hwf by (apply reachable_wf; by exists m, ops).
  destruct (LookUp_contents_wf key c Hwf) as (-> & _).
  destruct (mapping_last_inserted m ops key Hm) as [Hn|Hl].
  - left. by f_equal.
  - right. by f_equal.
Qed.

End Coherence.

Lemma LookUp_returns_last_inserted_witness :
  let ops := [lru.OpInsert "A" (Some (mkBlob "old" 4));
              lru.OpInsert "B" (Some (mkBlob "b" 4));
              lru.OpInsert "A" (Some (mkBlob "new" 2))] in
  let c := lru.run ops (lru.mkCache 10 0 GoList.empty ∅) in
  is_uint64 10 ∧
  observe.last_inserted "A" ops = Some (mkBlob "new" 2) ∧
  (fst (lru.LookUp "A" c) = Returns None ∨
   fst (lru.LookUp "A" c) = Returns (observe.last_inserted "A" ops)).
Proof.
  intros ops c.
  assert (is_uint64 10) as Hm by (split; [discriminate | reflexivity]).
  exact (conj Hm (conj eq_refl (LookUp_returns_last_inserted 10 ops "A" Hm))).
Defined.
